(** * SurveyFlow: the QC pipeline of [Main.py]

    [Main.py] reconciles three tables (survey responses, question metadata
    and a numeric-code lookup) into one QC table.  The functions verified
    here are [cleanse_series], [cleanse_df] and [build_qc_output], and the
    two lines of the page that read the options.

    Conventions of the embedding.
    - A [str] is the sequence of its Unicode code points.  White space is
      what [str.strip], [str.split] and the class [\s] of [re] take for
      white space, and [str.upper] is the full upper-case mapping of the
      Unicode character database (version 14.0, the one of CPython 3.11),
      in which one character can become two or three.
    - A cell is a Python object held in an object column: missing
      ([None]/[NaN]), a [str], or an [int].
    - A [DataFrame] is its list of column labels and its rows, read by
      position (the index is the default [RangeIndex]).  The properties of
      tables are stated for tables with distinct labels.
    - pandas objects live in a heap and Python variables hold references:
      [copy], [drop], [melt], [merge] and boolean indexing allocate,
      [df[c] = s] and [s.loc[mask] = v] update in place, and [df[c]] is a
      view of its frame.
    - pandas calls follow pandas 2.x: [melt] refuses a frame that already
      has the [value_name] column and an identifier listed twice, [merge]
      raises [KeyError] for a missing key and [MergeError] when the suffixes
      make two labels equal, and [df[c]] is a frame, not a series, when
      several columns carry the label [c]. *)

From Stdlib Require Import String Ascii List NArith ZArith Bool Arith Lia DecimalString.
Import ListNotations.

(** ** Text: [str.strip], [re.sub(r"\s+", " ", x)], [str.upper] *)

Definition text : Type := list N.

(** Text literals are written in ASCII. *)
Inductive text_literal : Set :=
| lit_nil
| lit_cons (c : N) (r : text_literal).

Fixpoint literal_of_bytes (l : list Byte.byte) : option text_literal :=
  match l with
  | [] => Some lit_nil
  | b :: r =>
      match literal_of_bytes r with
      | Some t =>
          if (Byte.to_N b <? 128)%N then Some (lit_cons (Byte.to_N b) t) else None
      | None => None
      end
  end.

Fixpoint bytes_of_literal (t : text_literal) : option (list Byte.byte) :=
  match t with
  | lit_nil => Some []
  | lit_cons c r =>
      match Byte.of_N c, bytes_of_literal r with
      | Some b, Some l => if (c <? 128)%N then Some (b :: l) else None
      | _, _ => None
      end
  end.

Declare Scope text_scope.
Delimit Scope text_scope with text.
Set Warnings "-via-type-remapping,-via-type-mismatch".
String Notation text literal_of_bytes bytes_of_literal
  (via text_literal mapping [[nil] => lit_nil, [cons] => lit_cons]) : text_scope.
Set Warnings "via-type-remapping,via-type-mismatch".
Bind Scope text_scope with text.

Local Open Scope list_scope.
Local Open Scope nat_scope.
Local Open Scope text_scope.

Module Text.

Local Open Scope N_scope.

(** [s == t] *)
Fixpoint eqb (s t : text) : bool :=
  match s, t with
  | [], [] => true
  | a :: s', b :: t' => (a =? b) && eqb s' t'
  | _, _ => false
  end.

(** The text of an ASCII string of the standard library. *)
Definition of_string (s : string) : text :=
  map N_of_ascii (list_ascii_of_string s).

(** The white space of [str.strip], [str.split] and [\s]: the characters
    of [str.isspace]. *)
Definition whitespace : list N :=
  [0x09; 0x0A; 0x0B; 0x0C; 0x0D; 0x1C; 0x1D; 0x1E; 0x1F; 0x20; 0x85; 0xA0;
   0x1680; 0x2000; 0x2001; 0x2002; 0x2003; 0x2004; 0x2005; 0x2006; 0x2007;
   0x2008; 0x2009; 0x200A; 0x2028; 0x2029; 0x202F; 0x205F; 0x3000].

Definition isspace (c : N) : bool := existsb (N.eqb c) whitespace.
Arguments isspace : simpl never.

(** The line boundaries of [str.splitlines]. *)
Definition linebreaks : list N :=
  [0x0A; 0x0B; 0x0C; 0x0D; 0x1C; 0x1D; 0x1E; 0x85; 0x2028; 0x2029].

Definition is_linebreak (c : N) : bool := existsb (N.eqb c) linebreaks.
Arguments is_linebreak : simpl never.

(** The characters whose upper case is more than one character, with it. *)
Definition upper_special : list (N * list N) :=
  [
   (0xDF, [0x53; 0x53]); (0x149, [0x2BC; 0x4E]); (0x1F0, [0x4A; 0x30C]);
   (0x390, [0x399; 0x308; 0x301]); (0x3B0, [0x3A5; 0x308; 0x301]);
   (0x587, [0x535; 0x552]); (0x1E96, [0x48; 0x331]); (0x1E97, [0x54; 0x308]);
   (0x1E98, [0x57; 0x30A]); (0x1E99, [0x59; 0x30A]); (0x1E9A, [0x41; 0x2BE]);
   (0x1F50, [0x3A5; 0x313]); (0x1F52, [0x3A5; 0x313; 0x300]);
   (0x1F54, [0x3A5; 0x313; 0x301]); (0x1F56, [0x3A5; 0x313; 0x342]);
   (0x1F80, [0x1F08; 0x399]); (0x1F81, [0x1F09; 0x399]);
   (0x1F82, [0x1F0A; 0x399]); (0x1F83, [0x1F0B; 0x399]);
   (0x1F84, [0x1F0C; 0x399]); (0x1F85, [0x1F0D; 0x399]);
   (0x1F86, [0x1F0E; 0x399]); (0x1F87, [0x1F0F; 0x399]);
   (0x1F88, [0x1F08; 0x399]); (0x1F89, [0x1F09; 0x399]);
   (0x1F8A, [0x1F0A; 0x399]); (0x1F8B, [0x1F0B; 0x399]);
   (0x1F8C, [0x1F0C; 0x399]); (0x1F8D, [0x1F0D; 0x399]);
   (0x1F8E, [0x1F0E; 0x399]); (0x1F8F, [0x1F0F; 0x399]);
   (0x1F90, [0x1F28; 0x399]); (0x1F91, [0x1F29; 0x399]);
   (0x1F92, [0x1F2A; 0x399]); (0x1F93, [0x1F2B; 0x399]);
   (0x1F94, [0x1F2C; 0x399]); (0x1F95, [0x1F2D; 0x399]);
   (0x1F96, [0x1F2E; 0x399]); (0x1F97, [0x1F2F; 0x399]);
   (0x1F98, [0x1F28; 0x399]); (0x1F99, [0x1F29; 0x399]);
   (0x1F9A, [0x1F2A; 0x399]); (0x1F9B, [0x1F2B; 0x399]);
   (0x1F9C, [0x1F2C; 0x399]); (0x1F9D, [0x1F2D; 0x399]);
   (0x1F9E, [0x1F2E; 0x399]); (0x1F9F, [0x1F2F; 0x399]);
   (0x1FA0, [0x1F68; 0x399]); (0x1FA1, [0x1F69; 0x399]);
   (0x1FA2, [0x1F6A; 0x399]); (0x1FA3, [0x1F6B; 0x399]);
   (0x1FA4, [0x1F6C; 0x399]); (0x1FA5, [0x1F6D; 0x399]);
   (0x1FA6, [0x1F6E; 0x399]); (0x1FA7, [0x1F6F; 0x399]);
   (0x1FA8, [0x1F68; 0x399]); (0x1FA9, [0x1F69; 0x399]);
   (0x1FAA, [0x1F6A; 0x399]); (0x1FAB, [0x1F6B; 0x399]);
   (0x1FAC, [0x1F6C; 0x399]); (0x1FAD, [0x1F6D; 0x399]);
   (0x1FAE, [0x1F6E; 0x399]); (0x1FAF, [0x1F6F; 0x399]);
   (0x1FB2, [0x1FBA; 0x399]); (0x1FB3, [0x391; 0x399]);
   (0x1FB4, [0x386; 0x399]); (0x1FB6, [0x391; 0x342]);
   (0x1FB7, [0x391; 0x342; 0x399]); (0x1FBC, [0x391; 0x399]);
   (0x1FC2, [0x1FCA; 0x399]); (0x1FC3, [0x397; 0x399]);
   (0x1FC4, [0x389; 0x399]); (0x1FC6, [0x397; 0x342]);
   (0x1FC7, [0x397; 0x342; 0x399]); (0x1FCC, [0x397; 0x399]);
   (0x1FD2, [0x399; 0x308; 0x300]); (0x1FD3, [0x399; 0x308; 0x301]);
   (0x1FD6, [0x399; 0x342]); (0x1FD7, [0x399; 0x308; 0x342]);
   (0x1FE2, [0x3A5; 0x308; 0x300]); (0x1FE3, [0x3A5; 0x308; 0x301]);
   (0x1FE4, [0x3A1; 0x313]); (0x1FE6, [0x3A5; 0x342]);
   (0x1FE7, [0x3A5; 0x308; 0x342]); (0x1FF2, [0x1FFA; 0x399]);
   (0x1FF3, [0x3A9; 0x399]); (0x1FF4, [0x38F; 0x399]);
   (0x1FF6, [0x3A9; 0x342]); (0x1FF7, [0x3A9; 0x342; 0x399]);
   (0x1FFC, [0x3A9; 0x399]); (0xFB00, [0x46; 0x46]); (0xFB01, [0x46; 0x49]);
   (0xFB02, [0x46; 0x4C]); (0xFB03, [0x46; 0x46; 0x49]);
   (0xFB04, [0x46; 0x46; 0x4C]); (0xFB05, [0x53; 0x54]);
   (0xFB06, [0x53; 0x54]); (0xFB13, [0x544; 0x546]);
   (0xFB14, [0x544; 0x535]); (0xFB15, [0x544; 0x53B]);
   (0xFB16, [0x54E; 0x546]); (0xFB17, [0x544; 0x53D])
  ].

(** The other cased characters, in runs [(first, last, step, upper of
    first)]: the characters [first], [first + step], ..., [last] have their
    upper case at the same distance. *)
Definition upper_ranges : list (N * N * N * N) :=
  [
   (0x61, 0x7A, 1, 0x41); (0xB5, 0xB5, 1, 0x39C); (0xE0, 0xF6, 1, 0xC0);
   (0xF8, 0xFE, 1, 0xD8); (0xFF, 0xFF, 1, 0x178); (0x101, 0x12F, 2, 0x100);
   (0x131, 0x131, 1, 0x49); (0x133, 0x137, 2, 0x132);
   (0x13A, 0x148, 2, 0x139); (0x14B, 0x177, 2, 0x14A);
   (0x17A, 0x17E, 2, 0x179); (0x17F, 0x17F, 1, 0x53);
   (0x180, 0x180, 1, 0x243); (0x183, 0x185, 2, 0x182);
   (0x188, 0x188, 1, 0x187); (0x18C, 0x18C, 1, 0x18B);
   (0x192, 0x192, 1, 0x191); (0x195, 0x195, 1, 0x1F6);
   (0x199, 0x199, 1, 0x198); (0x19A, 0x19A, 1, 0x23D);
   (0x19E, 0x19E, 1, 0x220); (0x1A1, 0x1A5, 2, 0x1A0);
   (0x1A8, 0x1A8, 1, 0x1A7); (0x1AD, 0x1AD, 1, 0x1AC);
   (0x1B0, 0x1B0, 1, 0x1AF); (0x1B4, 0x1B6, 2, 0x1B3);
   (0x1B9, 0x1B9, 1, 0x1B8); (0x1BD, 0x1BD, 1, 0x1BC);
   (0x1BF, 0x1BF, 1, 0x1F7); (0x1C5, 0x1C5, 1, 0x1C4);
   (0x1C6, 0x1C6, 1, 0x1C4); (0x1C8, 0x1C8, 1, 0x1C7);
   (0x1C9, 0x1C9, 1, 0x1C7); (0x1CB, 0x1CB, 1, 0x1CA);
   (0x1CC, 0x1CC, 1, 0x1CA); (0x1CE, 0x1DC, 2, 0x1CD);
   (0x1DD, 0x1DD, 1, 0x18E); (0x1DF, 0x1EF, 2, 0x1DE);
   (0x1F2, 0x1F2, 1, 0x1F1); (0x1F3, 0x1F3, 1, 0x1F1);
   (0x1F5, 0x1F5, 1, 0x1F4); (0x1F9, 0x21F, 2, 0x1F8);
   (0x223, 0x233, 2, 0x222); (0x23C, 0x23C, 1, 0x23B);
   (0x23F, 0x240, 1, 0x2C7E); (0x242, 0x242, 1, 0x241);
   (0x247, 0x24F, 2, 0x246); (0x250, 0x250, 1, 0x2C6F);
   (0x251, 0x251, 1, 0x2C6D); (0x252, 0x252, 1, 0x2C70);
   (0x253, 0x253, 1, 0x181); (0x254, 0x254, 1, 0x186);
   (0x256, 0x257, 1, 0x189); (0x259, 0x259, 1, 0x18F);
   (0x25B, 0x25B, 1, 0x190); (0x25C, 0x25C, 1, 0xA7AB);
   (0x260, 0x260, 1, 0x193); (0x261, 0x261, 1, 0xA7AC);
   (0x263, 0x263, 1, 0x194); (0x265, 0x265, 1, 0xA78D);
   (0x266, 0x266, 1, 0xA7AA); (0x268, 0x268, 1, 0x197);
   (0x269, 0x269, 1, 0x196); (0x26A, 0x26A, 1, 0xA7AE);
   (0x26B, 0x26B, 1, 0x2C62); (0x26C, 0x26C, 1, 0xA7AD);
   (0x26F, 0x26F, 1, 0x19C); (0x271, 0x271, 1, 0x2C6E);
   (0x272, 0x272, 1, 0x19D); (0x275, 0x275, 1, 0x19F);
   (0x27D, 0x27D, 1, 0x2C64); (0x280, 0x280, 1, 0x1A6);
   (0x282, 0x282, 1, 0xA7C5); (0x283, 0x283, 1, 0x1A9);
   (0x287, 0x287, 1, 0xA7B1); (0x288, 0x288, 1, 0x1AE);
   (0x289, 0x289, 1, 0x244); (0x28A, 0x28B, 1, 0x1B1);
   (0x28C, 0x28C, 1, 0x245); (0x292, 0x292, 1, 0x1B7);
   (0x29D, 0x29D, 1, 0xA7B2); (0x29E, 0x29E, 1, 0xA7B0);
   (0x345, 0x345, 1, 0x399); (0x371, 0x373, 2, 0x370);
   (0x377, 0x377, 1, 0x376); (0x37B, 0x37D, 1, 0x3FD);
   (0x3AC, 0x3AC, 1, 0x386); (0x3AD, 0x3AF, 1, 0x388);
   (0x3B1, 0x3C1, 1, 0x391); (0x3C2, 0x3C2, 1, 0x3A3);
   (0x3C3, 0x3CB, 1, 0x3A3); (0x3CC, 0x3CC, 1, 0x38C);
   (0x3CD, 0x3CE, 1, 0x38E); (0x3D0, 0x3D0, 1, 0x392);
   (0x3D1, 0x3D1, 1, 0x398); (0x3D5, 0x3D5, 1, 0x3A6);
   (0x3D6, 0x3D6, 1, 0x3A0); (0x3D7, 0x3D7, 1, 0x3CF);
   (0x3D9, 0x3EF, 2, 0x3D8); (0x3F0, 0x3F0, 1, 0x39A);
   (0x3F1, 0x3F1, 1, 0x3A1); (0x3F2, 0x3F2, 1, 0x3F9);
   (0x3F3, 0x3F3, 1, 0x37F); (0x3F5, 0x3F5, 1, 0x395);
   (0x3F8, 0x3F8, 1, 0x3F7); (0x3FB, 0x3FB, 1, 0x3FA);
   (0x430, 0x44F, 1, 0x410); (0x450, 0x45F, 1, 0x400);
   (0x461, 0x481, 2, 0x460); (0x48B, 0x4BF, 2, 0x48A);
   (0x4C2, 0x4CE, 2, 0x4C1); (0x4CF, 0x4CF, 1, 0x4C0);
   (0x4D1, 0x52F, 2, 0x4D0); (0x561, 0x586, 1, 0x531);
   (0x10D0, 0x10FA, 1, 0x1C90); (0x10FD, 0x10FF, 1, 0x1CBD);
   (0x13F8, 0x13FD, 1, 0x13F0); (0x1C80, 0x1C80, 1, 0x412);
   (0x1C81, 0x1C81, 1, 0x414); (0x1C82, 0x1C82, 1, 0x41E);
   (0x1C83, 0x1C84, 1, 0x421); (0x1C85, 0x1C85, 1, 0x422);
   (0x1C86, 0x1C86, 1, 0x42A); (0x1C87, 0x1C87, 1, 0x462);
   (0x1C88, 0x1C88, 1, 0xA64A); (0x1D79, 0x1D79, 1, 0xA77D);
   (0x1D7D, 0x1D7D, 1, 0x2C63); (0x1D8E, 0x1D8E, 1, 0xA7C6);
   (0x1E01, 0x1E95, 2, 0x1E00); (0x1E9B, 0x1E9B, 1, 0x1E60);
   (0x1EA1, 0x1EFF, 2, 0x1EA0); (0x1F00, 0x1F07, 1, 0x1F08);
   (0x1F10, 0x1F15, 1, 0x1F18); (0x1F20, 0x1F27, 1, 0x1F28);
   (0x1F30, 0x1F37, 1, 0x1F38); (0x1F40, 0x1F45, 1, 0x1F48);
   (0x1F51, 0x1F57, 2, 0x1F59); (0x1F60, 0x1F67, 1, 0x1F68);
   (0x1F70, 0x1F71, 1, 0x1FBA); (0x1F72, 0x1F75, 1, 0x1FC8);
   (0x1F76, 0x1F77, 1, 0x1FDA); (0x1F78, 0x1F79, 1, 0x1FF8);
   (0x1F7A, 0x1F7B, 1, 0x1FEA); (0x1F7C, 0x1F7D, 1, 0x1FFA);
   (0x1FB0, 0x1FB1, 1, 0x1FB8); (0x1FBE, 0x1FBE, 1, 0x399);
   (0x1FD0, 0x1FD1, 1, 0x1FD8); (0x1FE0, 0x1FE1, 1, 0x1FE8);
   (0x1FE5, 0x1FE5, 1, 0x1FEC); (0x214E, 0x214E, 1, 0x2132);
   (0x2170, 0x217F, 1, 0x2160); (0x2184, 0x2184, 1, 0x2183);
   (0x24D0, 0x24E9, 1, 0x24B6); (0x2C30, 0x2C5F, 1, 0x2C00);
   (0x2C61, 0x2C61, 1, 0x2C60); (0x2C65, 0x2C65, 1, 0x23A);
   (0x2C66, 0x2C66, 1, 0x23E); (0x2C68, 0x2C6C, 2, 0x2C67);
   (0x2C73, 0x2C73, 1, 0x2C72); (0x2C76, 0x2C76, 1, 0x2C75);
   (0x2C81, 0x2CE3, 2, 0x2C80); (0x2CEC, 0x2CEE, 2, 0x2CEB);
   (0x2CF3, 0x2CF3, 1, 0x2CF2); (0x2D00, 0x2D25, 1, 0x10A0);
   (0x2D27, 0x2D27, 1, 0x10C7); (0x2D2D, 0x2D2D, 1, 0x10CD);
   (0xA641, 0xA66D, 2, 0xA640); (0xA681, 0xA69B, 2, 0xA680);
   (0xA723, 0xA72F, 2, 0xA722); (0xA733, 0xA76F, 2, 0xA732);
   (0xA77A, 0xA77C, 2, 0xA779); (0xA77F, 0xA787, 2, 0xA77E);
   (0xA78C, 0xA78C, 1, 0xA78B); (0xA791, 0xA793, 2, 0xA790);
   (0xA794, 0xA794, 1, 0xA7C4); (0xA797, 0xA7A9, 2, 0xA796);
   (0xA7B5, 0xA7C3, 2, 0xA7B4); (0xA7C8, 0xA7CA, 2, 0xA7C7);
   (0xA7D1, 0xA7D1, 1, 0xA7D0); (0xA7D7, 0xA7D9, 2, 0xA7D6);
   (0xA7F6, 0xA7F6, 1, 0xA7F5); (0xAB53, 0xAB53, 1, 0xA7B3);
   (0xAB70, 0xABBF, 1, 0x13A0); (0xFF41, 0xFF5A, 1, 0xFF21);
   (0x10428, 0x1044F, 1, 0x10400); (0x104D8, 0x104FB, 1, 0x104B0);
   (0x10597, 0x105A1, 1, 0x10570); (0x105A3, 0x105B1, 1, 0x1057C);
   (0x105B3, 0x105B9, 1, 0x1058C); (0x105BB, 0x105BC, 1, 0x10594);
   (0x10CC0, 0x10CF2, 1, 0x10C80); (0x118C0, 0x118DF, 1, 0x118A0);
   (0x16E60, 0x16E7F, 1, 0x16E40); (0x1E922, 0x1E943, 1, 0x1E900)
  ].

Fixpoint lookup_special (c : N) (l : list (N * list N)) : option (list N) :=
  match l with
  | [] => None
  | (x, out) :: r => if c =? x then Some out else lookup_special c r
  end.

Definition in_range (c : N) (r : N * N * N * N) : bool :=
  let '(first, last, step, _) := r in
  (first <=? c) && (c <=? last) && ((c - first) mod step =? 0).

Fixpoint lookup_range (c : N) (l : list (N * N * N * N)) : option N :=
  match l with
  | [] => None
  | r :: l' =>
      if in_range c r
      then let '(first, _, _, up) := r in Some (up + (c - first))
      else lookup_range c l'
  end.

(** [c.upper()] for one character. *)
Definition to_upper (c : N) : list N :=
  match lookup_special c upper_special with
  | Some out => out
  | None =>
      match lookup_range c upper_ranges with
      | Some u => [u]
      | None => [c]
      end
  end.
Arguments to_upper : simpl never.

(** The characters of a run, and the characters that have an upper case
    other than themselves. *)
Definition range_points (r : N * N * N * N) : list N :=
  let '(first, last, _, _) := r in
  filter (fun c => in_range c r)
    (map (fun k => first + N.of_nat k) (seq 0 (S (N.to_nat (last - first))))).

Definition upper_domain : list N :=
  map fst upper_special ++ flat_map range_points upper_ranges.

Fixpoint lstrip (s : text) : text :=
  match s with
  | [] => []
  | c :: r => if isspace c then lstrip r else s
  end.

Fixpoint rstrip (s : text) : text :=
  match s with
  | [] => []
  | c :: r =>
      match rstrip r with
      | [] => if isspace c then [] else [c]
      | r' => c :: r'
      end
  end.

(** [x.strip()] *)
Definition strip (s : text) : text := lstrip (rstrip s).

(** [re.sub(r"\s+", " ", x)]: every maximal run of white space becomes one
    space; [in_run] tells that the previous character was white space. *)
Fixpoint sub_ws (in_run : bool) (s : text) : text :=
  match s with
  | [] => []
  | c :: r =>
      if isspace c
      then if in_run then sub_ws true r else 0x20 :: sub_ws true r
      else c :: sub_ws false r
  end.

Definition re_sub_ws (s : text) : text := sub_ws false s.

(** [x.upper()] *)
Definition upper (s : text) : text := flat_map to_upper s.

(** The three steps of [cleanse_series] on one text. *)
Definition cleanse_text (fold_case : bool) (s : text) : text :=
  let t := re_sub_ws (strip s) in
  if fold_case then upper t else t.

(** The words of a text, as [x.split()] gives them: the maximal runs of
    characters that are not white space. *)
Fixpoint words (s : text) : list text :=
  match s with
  | [] => []
  | c :: r =>
      if isspace c then words r
      else match r with
           | [] => [[c]]
           | c' :: _ =>
               if isspace c' then [c] :: words r
               else match words r with
                    | w :: ws => (c :: w) :: ws
                    | [] => [[c]]
                    end
           end
  end.

(** [sep.join(ws)] *)
Fixpoint join (sep : text) (ws : list text) : text :=
  match ws with
  | [] => []
  | w :: ws' =>
      match ws' with
      | [] => w
      | _ :: _ => w ++ sep ++ join sep ws'
      end
  end.

(** The cleansed form as the specification words it: no white space at
    either end, the words in order with exactly one space between two,
    upper-cased when case folding is asked for. *)
Definition normal_form (fold_case : bool) (s : text) : text :=
  let t := join " " (words s) in
  if fold_case then upper t else t.

(** A text without trailing white space. *)
Definition notrail (s : text) : Prop := rstrip s = s.

End Text.

(** ** Cells and columns *)

Inductive cell : Type :=
| NA
| Str (s : text)
| Int (z : Z).

(** [Series.notna], one cell *)
Definition notna (c : cell) : bool :=
  match c with NA => false | _ => true end.

(** [str(x)]; a missing cell is never converted by the program. *)
Definition py_str (c : cell) : text :=
  match c with
  | NA => "nan"
  | Str s => s
  | Int z => Text.of_string (NilZero.string_of_int (Z.to_int z))
  end.

Definition cell_eqb (a b : cell) : bool :=
  match a, b with
  | NA, NA => true
  | Str s, Str t => Text.eqb s t
  | Int x, Int y => Z.eqb x y
  | _, _ => false
  end.

Inductive error : Type :=
| KeyError (key : text)
| ValueError (msg : text)
| MergeError (duplicates : list text)
| TypeError (msg : text)
| AttributeError (msg : text).

(** The errors of pandas that the program meets: [melt] on a frame that has
    a column called [value_name], and [.loc] with a mask that is a frame. *)
Definition value_name_error (value_name : text) : error :=
  ValueError ("value_name (" ++ value_name
              ++ ") cannot match an element in the DataFrame columns.").

Definition multidimensional_key : error :=
  ValueError "Cannot index with multidimensional key".

Inductive result (A : Type) : Type :=
| Ok (a : A)
| Err (e : error).
Arguments Ok {A} a.
Arguments Err {A} e.

(** [.astype(str)], [.str.strip()], [.str.upper()] on one cell: the [.str]
    methods give a missing value for a cell that is not text. *)
Definition astype_str (c : cell) : cell := Str (py_str c).

Definition str_strip (c : cell) : cell :=
  match c with Str s => Str (Text.strip s) | _ => NA end.

Definition str_upper (c : cell) : cell :=
  match c with Str s => Str (Text.upper s) | _ => NA end.

(** [lambda x: re.sub(r"\s+", " ", x)]: [re.sub] raises on a non-string. *)
Definition re_sub_cell (c : cell) : result cell :=
  match c with
  | Str s => Ok (Str (Text.re_sub_ws s))
  | _ => Err (TypeError "expected string or bytes-like object")
  end.

(** [Series.apply(f)] for an [f] that may raise *)
Fixpoint apply_cells (f : cell -> result cell) (l : list cell) : result (list cell) :=
  match l with
  | [] => Ok []
  | c :: r =>
      match f c with
      | Err e => Err e
      | Ok c' =>
          match apply_cells f r with
          | Err e => Err e
          | Ok r' => Ok (c' :: r')
          end
      end
  end.

(** [x[mask]]: the entries at the positions where the mask is true. *)
Fixpoint select {A : Type} (mask : list bool) (l : list A) : list A :=
  match mask, l with
  | b :: m, x :: r => if b then x :: select m r else select m r
  | _, _ => []
  end.

(** [out.loc[mask] = vals]: the masked positions take the values in order;
    a position the values do not reach becomes missing (index alignment). *)
Fixpoint loc_assign (mask : list bool) (l vals : list cell) : list cell :=
  match mask, l with
  | b :: m, c :: r =>
      if b then hd NA vals :: loc_assign m r (tl vals)
      else c :: loc_assign m r vals
  | _, _ => l
  end.

(** What [cleanse_series] makes of one cell. *)
Definition cleanse_cell (fold_case : bool) (c : cell) : cell :=
  match c with
  | NA => NA
  | _ => Str (Text.cleanse_text fold_case (py_str c))
  end.

(** ** Frames: the pandas calls the program makes, on values *)

Record DataFrame : Type := mkDF {
  columns : list text;
  rows : list (list cell)
}.

(** [c in labels] *)
Definition mem (c : text) (labels : list text) : bool :=
  existsb (Text.eqb c) labels.

(** The number of columns labelled [c]. *)
Definition count (c : text) (labels : list text) : nat :=
  length (filter (Text.eqb c) labels).

(** Position of the first column labelled [c]. *)
Fixpoint index_of (c : text) (labels : list text) : option nat :=
  match labels with
  | [] => None
  | x :: r => if Text.eqb c x then Some 0
              else match index_of c r with Some i => Some (S i) | None => None end
  end.

Definition column_values (t : DataFrame) (i : nat) : list cell :=
  map (fun r => nth i r NA) (rows t).

(** The cell of row [r] under the label [c]. *)
Definition cell_at (t : DataFrame) (r : list cell) (c : text) : cell :=
  match index_of c (columns t) with
  | Some i => nth i r NA
  | None => NA
  end.

Fixpoint replace_nth {A : Type} (i : nat) (x : A) (l : list A) : list A :=
  match l, i with
  | [], _ => []
  | _ :: r, 0 => x :: r
  | y :: r, S j => y :: replace_nth j x r
  end.

Fixpoint assign_rows (i : nat) (rs : list (list cell)) (vals : list cell)
  : list (list cell) :=
  match rs with
  | [] => []
  | r :: rs' => replace_nth i (hd NA vals) r :: assign_rows i rs' (tl vals)
  end.

Fixpoint append_rows (rs : list (list cell)) (vals : list cell) : list (list cell) :=
  match rs with
  | [] => []
  | r :: rs' => (r ++ [hd NA vals]) :: append_rows rs' (tl vals)
  end.

(** [df[c] = vals] for a label that one column has or none: the column is
    overwritten row by row, a new label is appended; a row the values do not
    reach gets a missing cell. *)
Definition set_column (t : DataFrame) (c : text) (vals : list cell) : DataFrame :=
  match index_of c (columns t) with
  | Some i => mkDF (columns t) (assign_rows i (rows t) vals)
  | None => mkDF (columns t ++ [c]) (append_rows (rows t) vals)
  end.

(** [df.drop(columns=names, errors="ignore")] *)
Definition drop_columns (t : DataFrame) (names : list text) : DataFrame :=
  let keep := map (fun c => negb (mem c names)) (columns t) in
  mkDF (select keep (columns t)) (map (select keep) (rows t)).

(** What [df[c]] is when several columns carry the label [c]: the frame of
    these columns. *)
Definition columns_labelled (t : DataFrame) (c : text) : DataFrame :=
  let keep := map (Text.eqb c) (columns t) in
  mkDF (select keep (columns t)) (map (select keep) (rows t)).

(** The first label of [l] that [seen] or an earlier position of [l] has. *)
Fixpoint first_repeated (seen l : list text) : option text :=
  match l with
  | [] => None
  | c :: r => if mem c seen then Some c else first_repeated (c :: seen) r
  end.

(** [df.melt(id_vars, value_vars, var_name, value_name)] on a frame with
    distinct labels, for value columns that are not identifiers: one row per
    value column and input row, value column by value column.  The
    identifier columns are taken out of the frame one after the other
    ([frame.pop]), which fails for an identifier that is listed a second
    time; an identifier column called [var_name] is overwritten by the
    column of the labels.  (The [KeyError] for labels that the frame does
    not have names them all in its message; the program passes no such
    label.) *)
Definition melt (t : DataFrame) (id_vars value_vars : list text)
    (var_name value_name : text) : result DataFrame :=
  if mem value_name (columns t)
  then Err (value_name_error value_name)
  else match find (fun c => negb (mem c (columns t))) (id_vars ++ value_vars) with
       | Some c => Err (KeyError c)
       | None =>
           match first_repeated [] id_vars with
           | Some c => Err (KeyError c)
           | None =>
               Ok (mkDF (id_vars ++ [var_name; value_name])
                     (flat_map
                        (fun v =>
                           map (fun r =>
                                  map (fun k => if Text.eqb k var_name then Str v
                                                else cell_at t r k) id_vars
                                  ++ [Str v; cell_at t r v])
                               (rows t))
                        value_vars))
           end
       end.

(** [df[mask]] *)
Definition filter_rows (t : DataFrame) (mask : list bool) : DataFrame :=
  mkDF (columns t) (select mask (rows t)).

Inductive how : Type := Inner | Left.

Definition remove_nth {A : Type} (i : nat) (l : list A) : list A :=
  firstn i l ++ skipn (S i) l.

(** A label that both sides carry takes its side's suffix. *)
Definition rename_overlap (other : list text) (suffix : text) (c : text)
  : text :=
  if mem c other then c ++ suffix else c.

(** The labels that are repeated after the renaming and were not before. *)
Fixpoint suffix_dups (seen_new seen_old new old : list text) : list text :=
  match new, old with
  | n :: new', o :: old' =>
      (if mem n seen_new && negb (mem o seen_old) then [n] else [])
      ++ suffix_dups (n :: seen_new) (o :: seen_old) new' old'
  | _, _ => []
  end.

(** The rows of the right frame whose key equals the key of [l]; two
    missing keys are equal. *)
Definition matches (i j : nat) (right_rows : list (list cell)) (l : list cell)
  : list (list cell) :=
  filter (fun r => cell_eqb (nth i l NA) (nth j r NA)) right_rows.

Definition merge_row (h : how) (i j width : nat) (right_rows : list (list cell))
    (l : list cell) : list (list cell) :=
  match matches i j right_rows l, h with
  | [], Left => [l ++ repeat NA width]
  | ms, _ => map (fun r => l ++ remove_nth j r) ms
  end.

(** [left.merge(right, on=on, how=h, suffixes=suffixes)]: the rows of the
    left frame in order, each once per matching right row; the key column
    of the right frame is not repeated.  [MergeError] carries the labels
    that its message names. *)
Definition merge (left right : DataFrame) (on : text) (h : how)
    (suffixes : text * text) : result DataFrame :=
  match index_of on (columns left), index_of on (columns right) with
  | Some i, Some j =>
      let rcols := remove_nth j (columns right) in
      let llabels := map (rename_overlap rcols (fst suffixes)) (columns left) in
      let rlabels := map (rename_overlap (columns left) (snd suffixes)) rcols in
      match suffix_dups [] [] llabels (columns left)
            ++ suffix_dups [] [] rlabels rcols with
      | [] =>
          Ok (mkDF (llabels ++ rlabels)
                (flat_map (merge_row h i j (length rcols) (rows right)) (rows left)))
      | d :: ds => Err (MergeError (d :: ds))
      end
  | _, _ => Err (KeyError on)
  end.

(** ** The heap of pandas objects and the monad of the program *)

Inductive obj : Type :=
| ODataFrame (t : DataFrame)
| OSeries (v : list cell).

Definition heap : Type := list obj.
Definition ref : Type := nat.

(** What a variable for a series holds: a series of its own, or what
    [df[c]] gives, which is the column [c] of the frame at [df] when one
    column carries the label (writing to it writes to the frame), and a
    frame when several do. *)
Inductive series_ref : Type :=
| SOwn (r : ref)
| SView (df : ref) (c : text)
| SColumns (df : ref) (c : text).

Definition M (A : Type) : Type := heap -> result A * heap.

Definition ret {A : Type} (a : A) : M A := fun h => (Ok a, h).

Definition raise {A : Type} (e : error) : M A := fun h => (Err e, h).

Definition bind {A B : Type} (m : M A) (k : A -> M B) : M B :=
  fun h => match m h with
           | (Ok a, h') => k a h'
           | (Err e, h') => (Err e, h')
           end.

Notation "x <- m ;; k" := (bind m (fun x => k))
  (at level 61, m at next level, right associativity).

Definition lift {A : Type} (r : result A) : M A :=
  match r with Ok a => ret a | Err e => raise e end.

Definition alloc (o : obj) : M ref := fun h => (Ok (length h), h ++ [o]).

Definition store (r : ref) (o : obj) : M unit :=
  fun h => if r <? length h then (Ok tt, replace_nth r o h)
           else (Err (AttributeError "no such object"), h).

Definition df_read (df : ref) : M DataFrame :=
  fun h => match nth_error h df with
           | Some (ODataFrame t) => (Ok t, h)
           | _ => (Err (AttributeError "not a DataFrame"), h)
           end.

(** [df.copy()] *)
Definition df_copy (df : ref) : M ref :=
  t <- df_read df ;; alloc (ODataFrame t).

(** [df.columns] *)
Definition df_columns (df : ref) : M (list text) :=
  t <- df_read df ;; ret (columns t).

(** [df[c]] *)
Definition df_getitem (df : ref) (c : text) : M series_ref :=
  t <- df_read df ;;
  match count c (columns t) with
  | 0 => raise (KeyError c)
  | 1 => ret (SView df c)
  | _ => ret (SColumns df c)
  end.

Definition series_values (s : series_ref) : M (list cell) :=
  match s with
  | SOwn r =>
      fun h => match nth_error h r with
               | Some (OSeries v) => (Ok v, h)
               | _ => (Err (AttributeError "not a Series"), h)
               end
  | SView df c =>
      t <- df_read df ;;
      match index_of c (columns t), count c (columns t) with
      | Some i, 1 => ret (column_values t i)
      | _, _ => raise (KeyError c)
      end
  | SColumns _ _ => raise (AttributeError "not a Series")
  end.

(** [s.copy()] *)
Definition series_copy (s : series_ref) : M series_ref :=
  v <- series_values s ;; r <- alloc (OSeries v) ;; ret (SOwn r).

(** [s.loc[mask]] *)
Definition series_loc (s : series_ref) (mask : list bool) : M (list cell) :=
  v <- series_values s ;; ret (select mask v).

(** [s.loc[mask] = vals], in place *)
Definition series_loc_assign (s : series_ref) (mask : list bool) (vals : list cell)
  : M unit :=
  v <- series_values s ;;
  match s with
  | SOwn r => store r (OSeries (loc_assign mask v vals))
  | SView df c =>
      t <- df_read df ;;
      store df (ODataFrame (set_column t c (loc_assign mask v vals)))
  | SColumns _ _ => raise (AttributeError "not a Series")
  end.

(** [df[c] = s], in place; [df[c] = None] fills the column with [None]. *)
Definition df_setitem (df : ref) (c : text) (s : option series_ref) : M unit :=
  t <- df_read df ;;
  v <- match s with
       | Some sr => series_values sr
       | None => ret (repeat NA (length (rows t)))
       end ;;
  store df (ODataFrame (set_column t c v)).

Definition df_drop (df : ref) (names : list text) : M ref :=
  t <- df_read df ;; alloc (ODataFrame (drop_columns t names)).

Definition df_melt (df : ref) (id_vars value_vars : list text)
    (var_name value_name : text) : M ref :=
  t <- df_read df ;;
  t' <- lift (melt t id_vars value_vars var_name value_name) ;;
  alloc (ODataFrame t').

Definition df_filter (df : ref) (mask : list bool) : M ref :=
  t <- df_read df ;; alloc (ODataFrame (filter_rows t mask)).

Definition df_merge (left right : ref) (on : text) (h : how)
    (suffixes : text * text) : M ref :=
  l <- df_read left ;;
  r <- df_read right ;;
  t <- lift (merge l r on h suffixes) ;;
  alloc (ODataFrame t).

Fixpoint for_each {A : Type} (l : list A) (body : A -> M unit) : M unit :=
  match l with
  | [] => ret tt
  | x :: r => _ <- body x ;; for_each r body
  end.

(** ** The program *)

(** [cleanse_series(s, upper)], lines 9-25.  Given a frame (what [df[c]] is
    for a repeated label) the copy and the mask are frames, and
    [out.loc[mask]] at line 21 raises. *)
Definition cleanse_series (s : option series_ref) (upper : bool)
  : M (option series_ref) :=
  match s with
  | None => ret None
  | Some (SColumns df c) =>
      t <- df_read df ;;
      _ <- alloc (ODataFrame (columns_labelled t c)) ;;
      raise multidimensional_key
  | Some s =>
      out <- series_copy s ;;
      v <- series_values out ;;
      let mask := map notna v in
      sel <- series_loc out mask ;;
      _ <- series_loc_assign out mask (map str_strip (map astype_str sel)) ;;
      sel <- series_loc out mask ;;
      sub <- lift (apply_cells re_sub_cell sel) ;;
      _ <- series_loc_assign out mask sub ;;
      _ <- (if upper
            then sel <- series_loc out mask ;;
                 series_loc_assign out mask (map str_upper sel)
            else ret tt) ;;
      ret (Some out)
  end.

(** [cleanse_df(df, cols, upper)], lines 28-33. *)
Definition cleanse_df (df : ref) (cols : list text) (upper : bool) : M ref :=
  df <- df_copy df ;;
  _ <- for_each cols (fun c =>
         cs <- df_columns df ;;
         if mem c cs
         then s <- df_getitem df c ;;
              s' <- cleanse_series (Some s) upper ;;
              df_setitem df c s'
         else ret tt) ;;
  ret df.

Definition default_key_fields : list text :=
  ["Respondent"; "End time (GMT)"; "Panel"].

Definition recon_cols_to_clean : list text :=
  ["Name"; "Question number"; "Section"; "Question Text"; "Answer Option";
   "Loop Variable"; "Matrix Dimension"; "Double Loop Var1"; "Double Loop Var2"].

(** Steps 1 and 2 of [build_qc_output], lines 44-49: the placeholder
    cleansing and the column pruner. *)
Definition select_responses (responses_df : ref)
    (drop_from_responses : option (list text)) : M ref :=
  responses_df <- cleanse_df responses_df [] false ;;
  match drop_from_responses with
  | Some ((_ :: _) as names) =>
      cs <- df_columns responses_df ;;
      df_drop responses_df (filter (fun c => mem c cs) names)
  | _ => ret responses_df
  end.

(** Steps 3 and 4, lines 51-67: the reshaper. *)
Definition transpose_responses (responses_df : ref)
    (responses_key_fields : option (list text)) : M ref :=
  let responses_key_fields :=
    match responses_key_fields with
    | None => default_key_fields
    | Some ks => ks
    end in
  cs <- df_columns responses_df ;;
  let keys := filter (fun c => mem c cs) responses_key_fields in
  let data_cols := filter (fun c => negb (mem c keys)) cs in
  long_df <- df_melt responses_df keys data_cols "Name" "Value" ;;
  value <- df_getitem long_df "Value" ;;
  v <- series_values value ;;
  long_df <- df_filter long_df (map notna v) ;;
  df_copy long_df.

(** Lines 44-67: from the responses to the long table. *)
Definition reshape (responses_df : ref) (drop_from_responses : option (list text))
    (responses_key_fields : option (list text)) : M ref :=
  responses_df <- select_responses responses_df drop_from_responses ;;
  transpose_responses responses_df responses_key_fields.

(** Step 5, line 70. *)
Definition cleanse_long (long_df : ref) : M ref :=
  cleanse_df long_df ["Respondent"; "Panel"; "Name"] true.

(** Step 6, lines 74-85. *)
Definition cleanse_recon (recon_df : ref) : M ref :=
  cleanse_df recon_df recon_cols_to_clean true.

(** Stage A, lines 70-88: both sides cleansed, then the inner join on
    [Name]. *)
Definition stage_a (long_df recon_df : ref) : M ref :=
  long_df <- cleanse_long long_df ;;
  recon_df <- cleanse_recon recon_df ;;
  df_merge long_df recon_df "Name" Inner ("", "_recon").

(** Stage B, lines 92-101: [Value] cleansed on both sides, then the left
    join on [Value].  The joined frame is updated in place. *)
Definition stage_b (joined numerical_df : ref) : M ref :=
  cs <- df_columns numerical_df ;;
  numerical_df <-
    (if mem "Value" cs
     then numerical_df <- df_copy numerical_df ;;
          s <- df_getitem numerical_df "Value" ;;
          s' <- cleanse_series (Some s) true ;;
          _ <- df_setitem numerical_df "Value" s' ;;
          ret numerical_df
     else ret numerical_df) ;;
  s <- df_getitem joined "Value" ;;
  s' <- cleanse_series (Some s) true ;;
  _ <- df_setitem joined "Value" s' ;;
  df_merge joined numerical_df "Value" Left ("", "_num").

(** [build_qc_output], lines 36-103.  [recon_sheet_expected] is accepted
    and never read. *)
Definition build_qc_output (responses_df recon_df numerical_df : ref)
    (drop_from_responses : option (list text))
    (responses_key_fields : option (list text))
    (recon_sheet_expected : bool) : M ref :=
  long_df <- reshape responses_df drop_from_responses responses_key_fields ;;
  joined <- stage_a long_df recon_df ;;
  stage_b joined numerical_df.

(** ** What a run leaves in the heap *)

(** The frame [t] is the object at [r]. *)
Definition holds (h : heap) (r : ref) (t : DataFrame) : Prop :=
  nth_error h r = Some (ODataFrame t).

(** The run of [m] from [h] returns a reference to a frame equal to [t]. *)
Definition returns (m : M ref) (h : heap) (t : DataFrame) : Prop :=
  exists r h', m h = (Ok r, h') /\ holds h' r t.

(** The run of [m] from [h] raises [e]. *)
Definition raises {A : Type} (m : M A) (h : heap) (e : error) : Prop :=
  exists h', m h = (Err e, h').

(** The values of the series [s] in [h]. *)
Definition series_has (h : heap) (s : series_ref) (v : list cell) : Prop :=
  series_values s h = (Ok v, h).

(** The run of [m] from [h] returns a series with the values [v]. *)
Definition returns_series (m : M (option series_ref)) (h : heap) (v : list cell)
  : Prop :=
  exists s h', m h = (Ok (Some s), h') /\ series_has h' s v.

(** Outcome of a run: [Q] on a result, [E] on an exception. *)
Definition wp {A : Type} (m : M A) (h : heap)
    (Q : A -> heap -> Prop) (E : error -> heap -> Prop) : Prop :=
  match m h with
  | (Ok a, h') => Q a h'
  | (Err e, h') => E e h'
  end.

(** [h'] has every object of [h], unchanged, and maybe more. *)
Definition extends (h h' : heap) : Prop := exists ext, h' = h ++ ext.

(** The objects below [n] are the same in [h] and [h']. *)
Definition frame (n : nat) (h h' : heap) : Prop :=
  length h <= length h' /\ firstn n h' = firstn n h.

(** [m] writes to no object below [n], and its result satisfies [Q]. *)
Definition preserves {A : Type} (n : nat) (m : M A) (Q : A -> Prop) : Prop :=
  forall h, n <= length h ->
    frame n h (snd (m h)) /\ forall a, fst (m h) = Ok a -> Q a.

Definition fresh_series (n : nat) (s : option series_ref) : Prop :=
  match s with
  | Some (SOwn r) => n <= r
  | Some (SView df _) => n <= df
  | Some (SColumns df _) => n <= df
  | None => True
  end.

(** The run of [m] from [h] gives what the value [v] says: a reference to
    that frame, or that exception. *)
Definition computes (m : M ref) (h : heap) (v : result DataFrame) : Prop :=
  wp m h (fun r h' => exists t, v = Ok t /\ holds h' r t) (fun e _ => v = Err e).

(** ** The values the steps compute *)

(** The first and the second update of [cleanse_series] on one cell. *)
Definition strip_step (c : cell) : cell :=
  if notna c then str_strip (astype_str c) else c.

Definition sub_step (c : cell) : cell :=
  match c with Str s => Str (Text.re_sub_ws s) | _ => c end.

Definition rbind {A B : Type} (r : result A) (k : A -> result B) : result B :=
  match r with Ok a => k a | Err e => Err e end.

(** One turn of the loop of [cleanse_df]. *)
Definition cleanse_column (fold_case : bool) (t : DataFrame) (c : text)
  : DataFrame :=
  match index_of c (columns t) with
  | Some i => set_column t c (map (cleanse_cell fold_case) (column_values t i))
  | None => t
  end.

Definition cleanse_frame (t : DataFrame) (cols : list text) (fold_case : bool)
  : DataFrame :=
  fold_left (cleanse_column fold_case) cols t.

(** [df[c] = cleanse_series(df[c], upper)] on a frame: a label that several
    columns carry is refused at line 21. *)
Definition cleanse_column_value (fold_case : bool) (t : DataFrame) (c : text)
  : result DataFrame :=
  match count c (columns t) with
  | 0 => Err (KeyError c)
  | 1 => Ok (cleanse_column fold_case t c)
  | _ => Err multidimensional_key
  end.

(** A label of [cols] that several columns of [t] carry. *)
Definition repeated_in (t : DataFrame) (cols : list text) : bool :=
  existsb (fun c => 2 <=? count c (columns t)) cols.

(** The loop of [cleanse_df]. *)
Fixpoint cleanse_value (t : DataFrame) (cols : list text) (fold_case : bool)
  : result DataFrame :=
  match cols with
  | [] => Ok t
  | c :: cols' =>
      if mem c (columns t)
      then rbind (cleanse_column_value fold_case t c)
             (fun t' => cleanse_value t' cols' fold_case)
      else cleanse_value t cols' fold_case
  end.

(** The responses after the column pruner. *)
Definition pruned (t : DataFrame) (drop_from_responses : option (list text))
  : DataFrame :=
  match drop_from_responses with
  | Some ((_ :: _) as names) =>
      drop_columns t (filter (fun c => mem c (columns t)) names)
  | _ => t
  end.

(** [keys] and [data_cols] of lines 56-57. *)
Definition key_fields (t : DataFrame) (responses_key_fields : option (list text))
  : list text :=
  filter (fun c => mem c (columns t))
    (match responses_key_fields with
     | None => default_key_fields
     | Some ks => ks
     end).

Definition data_cols (t : DataFrame) (responses_key_fields : option (list text))
  : list text :=
  filter (fun c => negb (mem c (key_fields t responses_key_fields))) (columns t).

(** The identifier cells of a row of the long table, for the value column
    [v]: an identifier column called [Name] holds the label [v]. *)
Definition key_cells (t : DataFrame) (keys : list text) (v : text)
    (r : list cell) : list cell :=
  map (fun k => if Text.eqb k "Name" then Str v else cell_at t r k) keys.

Definition long_value (t : DataFrame) (responses_key_fields : option (list text))
  : result DataFrame :=
  rbind (melt t (key_fields t responses_key_fields)
           (data_cols t responses_key_fields) "Name" "Value")
    (fun m =>
       match index_of "Value" (columns m) with
       | Some i => Ok (filter_rows m (map notna (column_values m i)))
       | None => Err (KeyError "Value")
       end).

Definition reshape_value (t : DataFrame) (drop_from_responses : option (list text))
    (responses_key_fields : option (list text)) : result DataFrame :=
  long_value (pruned t drop_from_responses) responses_key_fields.

Definition cleanse_long_value (long : DataFrame) : DataFrame :=
  cleanse_frame long ["Respondent"; "Panel"; "Name"] true.

Definition cleanse_recon_value (recon : DataFrame) : DataFrame :=
  cleanse_frame recon recon_cols_to_clean true.

Definition stage_a_value (long recon : DataFrame) : result DataFrame :=
  rbind (cleanse_value long ["Respondent"; "Panel"; "Name"] true)
    (fun l => rbind (cleanse_value recon recon_cols_to_clean true)
                (fun r => merge l r "Name" Inner ("", "_recon"))).

Definition stage_b_value (joined numerical : DataFrame) : result DataFrame :=
  rbind (if mem "Value" (columns numerical)
         then cleanse_column_value true numerical "Value"
         else Ok numerical)
    (fun n => rbind (cleanse_column_value true joined "Value")
                (fun j => merge j n "Value" Left ("", "_num"))).

Definition build_value (responses recon numerical : DataFrame)
    (drop_from_responses : option (list text))
    (responses_key_fields : option (list text)) : result DataFrame :=
  rbind (reshape_value responses drop_from_responses responses_key_fields)
    (fun long => rbind (stage_a_value long recon)
                   (fun joined => stage_b_value joined numerical)).

(** The number of cells that are not missing over all pairs of a row and a
    value column. *)
Definition count_present (t : DataFrame) (value_cols : list text) : nat :=
  length (filter notna
            (flat_map (fun r => map (cell_at t r) value_cols) (rows t))).

(** Every row is as wide as the labels. *)
Definition rect (t : DataFrame) : Prop :=
  Forall (fun r => length r = length (columns t)) (rows t).

(** The well-formed frames: distinct labels, and rows as wide as the labels. *)
Definition wf_frame (t : DataFrame) : Prop := NoDup (columns t) /\ rect t.

(** [cleanse_series] on the cell at position [i] of a row. *)
Definition cleanse_at (fold_case : bool) (i : nat) (r : list cell) : list cell :=
  replace_nth i (cleanse_cell fold_case (nth i r NA)) r.

(** What [cleanse_df] makes of one row of a frame with the given labels. *)
Definition cleanse_row (fold_case : bool) (labels cols : list text)
    (r : list cell) : list cell :=
  fold_left (fun r c => match index_of c labels with
                        | Some i => cleanse_at fold_case i r
                        | None => r
                        end) cols r.

(** The labels a merge gives to the columns of its right frame, and those
    among them that the suffix makes equal. *)
Definition remove_label (on : text) (labels : list text) : list text :=
  match index_of on labels with
  | Some j => remove_nth j labels
  | None => labels
  end.

Definition right_labels (left_cols right_cols : list text) (on suffix : text)
  : list text :=
  map (rename_overlap left_cols suffix) (remove_label on right_cols).

Definition suffix_clash (left_cols right_cols : list text) (on suffix : text)
  : list text :=
  suffix_dups [] [] (right_labels left_cols right_cols on suffix)
    (remove_label on right_cols).



(** ** The scenario of the specification *)

Definition scenario_responses : DataFrame :=
  mkDF ["Respondent"; "Q1"; "Q2"] [[Str "r1 "; Str " yes "; NA]].

Definition scenario_recon : DataFrame :=
  mkDF ["Name"; "Section"] [[Str "Q1"; Str "A"]].

Definition scenario_numerical : DataFrame :=
  mkDF ["Value"; "Code"] [[Str "YES"; Int 1]].

(** The three tables at the references 0, 1 and 2. *)
Definition scenario_heap : heap :=
  [ODataFrame scenario_responses; ODataFrame scenario_recon;
   ODataFrame scenario_numerical].

Definition scenario_keys : option (list text) := Some ["Respondent"].

(** A column with text, a missing cell, a number, and text with a no-break
    space, an accented letter, two em spaces and a sharp s. *)
Definition example_column : list cell :=
  [Str "  Strongly   agree "; NA; Int 5;
   Str ([0xA0]%N ++ "caf" ++ [0xE9; 0x2003; 0x2003]%N ++ "stra" ++ [0xDF]%N ++ "e")].

(** A long table with a question the metadata table knows twice and one it
    does not know; a joined table with a value the numeric table knows and
    one it does not know. *)
Definition example_long : DataFrame :=
  mkDF ["Respondent"; "Name"; "Value"]
    [[Str "r1 "; Str "q1 "; Str " yes "]; [Str "r1 "; Str "Q9"; Str "no"]].



(** Responses whose question column is itself called [Value]. *)
Definition value_responses : DataFrame :=
  mkDF ["Respondent"; "Value"] [[Str "r1"; Str "yes"]].

(** The key field [Respondent], typed twice. *)
Definition repeated_keys : option (list text) :=
  Some ["Respondent"; "Respondent"].

(** A frame in which two columns are called [Name]. *)
Definition example_repeated : DataFrame :=
  mkDF ["Name"; "Name"; "Value"] [[Str "q1"; Str "q2"; Str "yes"]].

(** ** The option texts of the page, lines 148-149 *)

(** [text.split(sep)] for a separator of one character. *)
Fixpoint split_on (sep : N) (s : text) : list text :=
  match s with
  | [] => [[]]
  | c :: r =>
      if N.eqb c sep then [] :: split_on sep r
      else match split_on sep r with
           | w :: ws => (c :: w) :: ws
           | [] => [[c]]
           end
  end.

(** [text.splitlines()]: a carriage return followed by a line feed is one
    boundary, and a boundary at the end opens no line. *)
Fixpoint splitlines (s : text) : list text :=
  match s with
  | [] => []
  | c :: r =>
      if Text.is_linebreak c
      then match r with
           | c' :: r' =>
               if N.eqb c 0x0D && N.eqb c' 0x0A
               then [] :: splitlines r'
               else [] :: splitlines r
           | [] => [[]]
           end
      else match splitlines r with
           | w :: ws => (c :: w) :: ws
           | [] => [[c]]
           end
  end.

(** [[c.strip() for c in parts if c.strip()]] *)
Definition stripped_nonempty (parts : list text) : list text :=
  filter (fun s => negb (Text.eqb s "")) (map Text.strip parts).

(** Line 149: the key fields typed in the page. *)
Definition parse_key_fields (key_fields : text) : list text :=
  stripped_nonempty (split_on 0x2C key_fields).

(** Line 148: the columns to drop typed in the page. *)
Definition parse_drop_cols (drop_cols : text) : list text :=
  stripped_nonempty (splitlines drop_cols).

(** A name as the page passes it on: not empty, no white space at either
    end. *)
Definition trimmed_name (s : text) : Prop :=
  s <> ""
  /\ (forall c r, s = c :: r -> Text.isspace c = false)
  /\ (forall r c, s = r ++ [c] -> Text.isspace c = false).

(** No character of [s] satisfies [p]. *)
Definition free_of (p : N -> bool) (s : text) : bool :=
  forallb (fun c => negb (p c)) s.

(** Every character of [s] satisfies [p]. *)
Definition all_chars (p : N -> bool) (s : text) : bool := forallb p s.

(** ** Tidy text *)



(** * Facts about the text functions *)

Module TextFacts.
Import Text.

Lemma eqb_eq (s t : text) : eqb s t = true <-> s = t.
Proof.
  revert t. induction s as [|a s IH]; intros [|b t]; simpl; split; intros H;
    try discriminate; try reflexivity.
  - apply andb_true_iff in H. destruct H as [H1 H2].
    apply N.eqb_eq in H1. apply IH in H2. now subst.
  - injection H as -> ->. rewrite N.eqb_refl. now apply IH.
Qed.

Lemma eqb_refl (s : text) : eqb s s = true.
Proof. now apply eqb_eq. Qed.

Lemma eqb_neq (s t : text) : eqb s t = false <-> s <> t.
Proof.
  rewrite <- eqb_eq. destruct (eqb s t); split; congruence.
Qed.

(** ** The upper-case mapping *)

Lemma lookup_special_In c l out :
  lookup_special c l = Some out -> In c (map fst l).
Proof.
  induction l as [|[x o] l IH]; simpl; [discriminate|].
  destruct (N.eqb c x) eqn:E; [|auto]. apply N.eqb_eq in E. auto.
Qed.

Lemma in_range_points c r : in_range c r = true -> In c (range_points r).
Proof.
  intros H. unfold range_points. destruct r as [[[first last] step] up].
  apply filter_In. split; [|exact H].
  unfold in_range in H. apply andb_true_iff in H. destruct H as [H _].
  apply andb_true_iff in H. destruct H as [H1 H2].
  apply N.leb_le in H1, H2.
  apply in_map_iff. exists (N.to_nat (c - first)). split; [lia|].
  apply in_seq. lia.
Qed.

Lemma lookup_range_In c l u :
  lookup_range c l = Some u -> In c (flat_map range_points l).
Proof.
  induction l as [|r l IH]; simpl; [discriminate|].
  destruct (in_range c r) eqn:E; intros H; apply in_or_app.
  - left. now apply in_range_points.
  - right. auto.
Qed.

(** A character is its own upper case, or it is in the tables. *)
Lemma to_upper_cases c : to_upper c = [c] \/ In c upper_domain.
Proof.
  unfold to_upper, upper_domain.
  destruct (lookup_special c upper_special) eqn:E.
  - right. apply in_or_app. left. eapply lookup_special_In; eauto.
  - destruct (lookup_range c upper_ranges) eqn:E'; [|now left].
    right. apply in_or_app. right. eapply lookup_range_In; eauto.
Qed.

(** What holds of the characters that are their own upper case, and of
    every character of the tables, holds of every character. *)
Lemma to_upper_all (P : N -> bool) :
  (forall c, to_upper c = [c] -> P c = true) ->
  forallb P upper_domain = true ->
  forall c, P c = true.
Proof.
  intros H0 H c. destruct (to_upper_cases c) as [E|E]; [auto|].
  rewrite forallb_forall in H. auto.
Qed.

(** White space has no case. *)
Lemma to_upper_space c : isspace c = true -> to_upper c = [c].
Proof.
  intros H.
  assert (G : forall c, implb (isspace c) (eqb (to_upper c) [c]) = true).
  { apply to_upper_all.
    - intros x ->. rewrite eqb_refl. now destruct (isspace x).
    - vm_compute. reflexivity. }
  specialize (G c). rewrite H in G. simpl in G. now apply eqb_eq.
Qed.

(** The upper case of a character that is not white space is not empty and
    has no white space. *)
Lemma to_upper_nonspace c :
  isspace c = false ->
  to_upper c <> [] /\ forallb (fun d => negb (isspace d)) (to_upper c) = true.
Proof.
  intros H.
  assert (G : forall c,
             isspace c
             || (negb (eqb (to_upper c) [])
                 && forallb (fun d => negb (isspace d)) (to_upper c)) = true).
  { apply to_upper_all.
    - intros x ->. simpl. destruct (isspace x); reflexivity.
    - vm_compute. reflexivity. }
  specialize (G c). rewrite H in G. simpl in G.
  apply andb_true_iff in G. destruct G as [G1 G2]. split; [|exact G2].
  intros E. rewrite E in G1. discriminate.
Qed.

(** The upper case of a character is upper case. *)
Lemma to_upper_fixed c : upper (to_upper c) = to_upper c.
Proof.
  apply eqb_eq. revert c. apply to_upper_all.
  - intros x E. rewrite E. unfold upper. simpl. rewrite E.
    apply eqb_refl.
  - vm_compute. reflexivity.
Qed.

Lemma upper_cons (c : N) (r : text) : upper (c :: r) = to_upper c ++ upper r.
Proof. reflexivity. Qed.

Lemma upper_app (s t : text) : upper (s ++ t) = upper s ++ upper t.
Proof. apply flat_map_app. Qed.

Lemma upper_idem (s : text) : upper (upper s) = upper s.
Proof.
  induction s as [|c r IH]; [reflexivity|].
  now rewrite upper_cons, upper_app, to_upper_fixed, IH.
Qed.

Lemma upper_space : upper " " = " ".
Proof. reflexivity. Qed.

Lemma upper_join (ws : list text) :
  upper (join " " ws) = join " " (map upper ws).
Proof.
  induction ws as [|w ws IH]; [reflexivity|].
  destruct ws as [|w' ws]; [reflexivity|].
  change (join " " (w :: w' :: ws)) with (w ++ " " ++ join " " (w' :: ws)).
  rewrite !upper_app, IH, upper_space. reflexivity.
Qed.

(** The first character of an upper-cased text is white space exactly when
    the first character of the text is. *)
Lemma upper_head (c : N) (r : text) :
  exists d t, upper (c :: r) = d :: t /\ isspace d = isspace c.
Proof.
  rewrite upper_cons. destruct (isspace c) eqn:E.
  - rewrite (to_upper_space _ E). simpl. eauto.
  - destruct (to_upper_nonspace _ E) as [Hne Hall].
    destruct (to_upper c) as [|d t]; [congruence|].
    simpl in Hall. apply andb_true_iff in Hall. destruct Hall as [Hd _].
    apply negb_true_iff in Hd. simpl. eauto.
Qed.

(** ** Stripping *)

Lemma rstrip_cons (c : N) (r : text) :
  rstrip (c :: r) =
    match rstrip r with
    | [] => if isspace c then [] else [c]
    | c' :: t => c :: c' :: t
    end.
Proof. reflexivity. Qed.

Lemma rstrip_head (c : N) (r : text) :
  rstrip (c :: r) = [] \/ exists t, rstrip (c :: r) = c :: t.
Proof.
  rewrite rstrip_cons. destruct (rstrip r); [destruct (isspace c)|]; eauto.
Qed.

Lemma rstrip_empty_head (c : N) (r : text) :
  rstrip (c :: r) = [] -> isspace c = true /\ rstrip r = [].
Proof.
  rewrite rstrip_cons. destruct (rstrip r); [destruct (isspace c)|]; now intros.
Qed.

Lemma notrail_cons (c : N) (r : text) :
  notrail (c :: r) ->
  (r = [] /\ isspace c = false) \/ (r <> [] /\ notrail r).
Proof.
  unfold notrail. rewrite rstrip_cons. destruct (rstrip r) as [|c' t] eqn:E.
  - destruct (isspace c); intros H; [discriminate|]. left. now inversion H.
  - intros H. injection H as H1. right. split; congruence.
Qed.

Lemma notrail_tail (c : N) (r : text) : notrail (c :: r) -> notrail r.
Proof.
  intros H. destruct (notrail_cons _ _ H) as [[-> _]|[_ H']]; [reflexivity|exact H'].
Qed.

Lemma rstrip_notrail (s : text) : notrail (rstrip s).
Proof.
  unfold notrail. induction s as [|c r IH]; [reflexivity|].
  rewrite rstrip_cons. destruct (rstrip r) as [|c' t] eqn:E.
  - destruct (isspace c) eqn:Ec; [reflexivity|].
    rewrite rstrip_cons. simpl rstrip. now rewrite Ec.
  - rewrite rstrip_cons, IH. reflexivity.
Qed.

Lemma lstrip_cons (c : N) (r : text) :
  lstrip (c :: r) = if isspace c then lstrip r else c :: r.
Proof. reflexivity. Qed.

Lemma lstrip_notrail (s : text) : notrail s -> notrail (lstrip s).
Proof.
  induction s as [|c r IH]; intros H; [exact H|].
  rewrite lstrip_cons. destruct (isspace c); [|exact H].
  apply IH. eapply notrail_tail; eauto.
Qed.

Lemma lstrip_head (s : text) :
  lstrip s = [] \/ exists c t, lstrip s = c :: t /\ isspace c = false.
Proof.
  induction s as [|c r IH]; [now left|].
  rewrite lstrip_cons. destruct (isspace c) eqn:E; [exact IH|]. right. eauto.
Qed.

Lemma strip_notrail (s : text) : notrail (strip s).
Proof. apply lstrip_notrail, rstrip_notrail. Qed.

Lemma strip_idem (s : text) : strip (strip s) = strip s.
Proof.
  pose proof (strip_notrail s) as N.
  unfold strip at 1. rewrite N. unfold strip.
  destruct (lstrip_head (rstrip s)) as [E|(c & t & E & Ec)]; rewrite E.
  - reflexivity.
  - rewrite lstrip_cons. now rewrite Ec.
Qed.

Lemma notrail_last (r : text) (c : N) : notrail (r ++ [c]) -> isspace c = false.
Proof.
  induction r as [|a r IH]; intros H.
  - destruct (notrail_cons _ _ H) as [[_ E]|[E _]]; congruence.
  - apply IH. exact (notrail_tail _ _ H).
Qed.

Lemma rstrip_last (r : text) (c : N) :
  isspace c = false -> rstrip (r ++ [c]) = r ++ [c].
Proof.
  intros E. induction r as [|a r IH].
  - simpl app. rewrite rstrip_cons. simpl rstrip. now rewrite E.
  - simpl app. rewrite rstrip_cons, IH. now destruct (r ++ [c]) eqn:F;
      [destruct r; discriminate|].
Qed.

(** ** Words *)

Lemma words_cons_space (c : N) (r : text) :
  isspace c = true -> words (c :: r) = words r.
Proof. intros E. simpl. now rewrite E. Qed.

Lemma words_cons_nonspace (c : N) (r : text) :
  isspace c = false ->
  words (c :: r) =
    match r with
    | [] => [[c]]
    | c' :: _ =>
        if isspace c' then [c] :: words r
        else match words r with
             | w :: ws => (c :: w) :: ws
             | [] => [[c]]
             end
    end.
Proof. intros E. simpl. now rewrite E. Qed.

Lemma words_lstrip (s : text) : words (lstrip s) = words s.
Proof.
  induction s as [|c r IH]; [reflexivity|].
  rewrite lstrip_cons. destruct (isspace c) eqn:E; [|reflexivity].
  now rewrite (words_cons_space _ _ E).
Qed.

Lemma words_rstrip (s : text) : words (rstrip s) = words s.
Proof.
  induction s as [|c r IH]; [reflexivity|].
  rewrite rstrip_cons.
  destruct r as [|c0 r0].
  - simpl rstrip. destruct (isspace c) eqn:E.
    + now rewrite (words_cons_space _ _ E).
    + reflexivity.
  - destruct (rstrip_head c0 r0) as [H0|[t H0]]; rewrite H0 in *.
    + destruct (rstrip_empty_head _ _ H0) as [E0 _].
      destruct (isspace c) eqn:E.
      * now rewrite (words_cons_space c _ E), <- IH.
      * rewrite (words_cons_nonspace c (c0 :: r0) E), E0, <- IH.
        now rewrite (words_cons_nonspace c [] E).
    + destruct (isspace c) eqn:E.
      * now rewrite !(words_cons_space c _ E).
      * rewrite !(words_cons_nonspace c _ E), IH. reflexivity.
Qed.

Lemma words_strip (s : text) : words (strip s) = words s.
Proof. unfold strip. now rewrite words_lstrip, words_rstrip. Qed.

Lemma words_nonspace (c : N) (r : text) :
  isspace c = false -> words (c :: r) <> [].
Proof.
  intros E. rewrite (words_cons_nonspace _ _ E). destruct r as [|c' r']; [discriminate|].
  destruct (isspace c'); [discriminate|]. destruct (words (c' :: r')); discriminate.
Qed.

Lemma words_notrail (s : text) : notrail s -> s <> [] -> words s <> [].
Proof.
  induction s as [|c r IH]; intros H Hne; [congruence|].
  destruct (isspace c) eqn:E; [|now apply words_nonspace].
  rewrite (words_cons_space _ _ E).
  destruct (notrail_cons _ _ H) as [[_ E']|[Hr H']]; [congruence|]. now apply IH.
Qed.

(** The words of a text that starts with a block of characters that are
    not white space. *)
Lemma words_block (w r : text) :
  w <> [] -> forallb (fun d => negb (isspace d)) w = true ->
  words (w ++ r) =
    match r with
    | [] => [w]
    | c' :: _ =>
        if isspace c' then w :: words r
        else match words r with
             | w' :: ws => (w ++ w') :: ws
             | [] => [w]
             end
    end.
Proof.
  induction w as [|c w IH]; intros Hne Hall; [congruence|].
  simpl in Hall. apply andb_true_iff in Hall. destruct Hall as [Hc Hall].
  apply negb_true_iff in Hc.
  destruct w as [|c1 w1].
  - exact (words_cons_nonspace c r Hc).
  - assert (Hc1 : isspace c1 = false).
    { simpl in Hall. apply andb_true_iff in Hall. destruct Hall as [H1 _].
      now apply negb_true_iff in H1. }
    specialize (IH ltac:(discriminate) Hall).
    change ((c :: c1 :: w1) ++ r) with (c :: c1 :: (w1 ++ r)).
    change ((c1 :: w1) ++ r) with (c1 :: (w1 ++ r)) in IH.
    rewrite (words_cons_nonspace c (c1 :: (w1 ++ r)) Hc), Hc1, IH.
    destruct r as [|c' r']; [reflexivity|].
    destruct (isspace c'); [reflexivity|].
    now destruct (words (c' :: r')).
Qed.

Lemma join_cons (w : text) (ws : list text) :
  ws <> [] -> join " " (w :: ws) = w ++ " " ++ join " " ws.
Proof. destruct ws; [congruence|reflexivity]. Qed.

Lemma sub_ws_nonspace (b : bool) (c : N) (r : text) :
  isspace c = false -> sub_ws b (c :: r) = c :: sub_ws false r.
Proof. intros E. simpl. now rewrite E. Qed.

Lemma sub_ws_space (b : bool) (c : N) (r : text) :
  isspace c = true ->
  sub_ws b (c :: r) = if b then sub_ws true r else 32%N :: sub_ws true r.
Proof. intros E. simpl. now rewrite E. Qed.

(** [re.sub] on a text without trailing white space joins its words. *)
Lemma sub_ws_notrail (s : text) :
  notrail s ->
  sub_ws true s = join " " (words s) /\
  sub_ws false s =
    match s with
    | c :: _ => if isspace c then 32%N :: join " " (words s)
                else join " " (words s)
    | [] => []
    end.
Proof.
  induction s as [|c r IH]; intros H; [split; reflexivity|].
  destruct (notrail_cons _ _ H) as [[-> E]|[Hne Hr]].
  - rewrite !(sub_ws_nonspace _ _ _ E), (words_cons_nonspace _ _ E), E.
    split; reflexivity.
  - destruct (IH Hr) as [IHt IHf].
    destruct (isspace c) eqn:E.
    + rewrite (words_cons_space _ _ E), !(sub_ws_space _ _ _ E), IHt.
      split; reflexivity.
    + assert (G : sub_ws false (c :: r) = join " " (words (c :: r))).
      { rewrite (sub_ws_nonspace _ _ _ E), IHf, (words_cons_nonspace _ _ E).
        destruct r as [|c' r']; [congruence|].
        destruct (isspace c') eqn:E'.
        - rewrite join_cons by (apply words_notrail; [exact Hr|discriminate]).
          reflexivity.
        - destruct (words (c' :: r')) as [|w ws] eqn:Ew.
          + exfalso. exact (words_nonspace _ _ E' Ew).
          + destruct ws; reflexivity. }
      split; [|exact G]. rewrite <- G. now rewrite !(sub_ws_nonspace _ _ _ E).
Qed.

Lemma re_sub_ws_strip (s : text) :
  re_sub_ws (strip s) = join " " (words s).
Proof.
  unfold re_sub_ws.
  pose proof (strip_notrail s) as H.
  destruct (sub_ws_notrail _ H) as [_ Hf]. rewrite Hf, words_strip.
  unfold strip in *. destruct (lstrip_head (rstrip s)) as [E|(c & t & E & Ec)].
  - rewrite E. rewrite <- words_rstrip, <- words_lstrip, E. reflexivity.
  - rewrite E, Ec. reflexivity.
Qed.

(** The code's three steps compute the normal form of the specification. *)
Lemma cleanse_text_normal_form (f : bool) (s : text) :
  cleanse_text f s = normal_form f s.
Proof. unfold cleanse_text, normal_form. now rewrite re_sub_ws_strip. Qed.

Lemma sub_ws_head (c : N) (r : text) :
  exists c' t, sub_ws false (c :: r) = c' :: t /\ isspace c' = isspace c.
Proof.
  destruct (isspace c) eqn:E.
  - rewrite (sub_ws_space _ _ _ E). eauto.
  - rewrite (sub_ws_nonspace _ _ _ E). eauto.
Qed.

Lemma words_sub_ws (b : bool) (s : text) : words (sub_ws b s) = words s.
Proof.
  revert b. induction s as [|c r IH]; intros b; [reflexivity|].
  destruct (isspace c) eqn:E.
  - rewrite (words_cons_space _ _ E), (sub_ws_space _ _ _ E).
    destruct b; [apply IH|]. rewrite words_cons_space by reflexivity. apply IH.
  - rewrite (sub_ws_nonspace _ _ _ E), !(words_cons_nonspace _ _ E).
    destruct r as [|c' r']; [reflexivity|].
    rewrite (IH false).
    destruct (sub_ws_head c' r') as (c'' & t & Heq & Hsp).
    rewrite Heq, Hsp. reflexivity.
Qed.

(** Upper-casing keeps the words apart. *)
Lemma words_upper (s : text) : words (upper s) = map upper (words s).
Proof.
  induction s as [|c r IH]; [reflexivity|].
  rewrite upper_cons. destruct (isspace c) eqn:E.
  - rewrite (to_upper_space _ E). simpl app.
    now rewrite !(words_cons_space _ _ E).
  - destruct (to_upper_nonspace _ E) as [Hne Hall].
    rewrite (words_block _ _ Hne Hall), (words_cons_nonspace _ _ E).
    destruct r as [|c' r'].
    + simpl. unfold upper. simpl. now rewrite app_nil_r.
    + destruct (upper_head c' r') as (d & t & Heq & Hsp).
      rewrite Heq, Hsp, <- Heq, IH.
      assert (U : upper [c] = to_upper c)
        by (unfold upper; simpl; apply app_nil_r).
      destruct (isspace c'); [cbn [map]; now rewrite U|].
      destruct (words (c' :: r')) as [|w0 ws0]; cbn [map]; [now rewrite U|].
      now rewrite upper_cons.
Qed.

Lemma words_join_words (s : text) : words (join " " (words s)) = words s.
Proof.
  rewrite <- re_sub_ws_strip. unfold re_sub_ws. now rewrite words_sub_ws, words_strip.
Qed.

Lemma normal_form_idem (f : bool) (s : text) :
  normal_form f (normal_form f s) = normal_form f s.
Proof.
  unfold normal_form. destruct f.
  - rewrite words_upper, words_join_words, <- upper_join. apply upper_idem.
  - now rewrite words_join_words.
Qed.

Lemma cleanse_text_idem (f : bool) (s : text) :
  cleanse_text f (cleanse_text f s) = cleanse_text f s.
Proof. rewrite !cleanse_text_normal_form. apply normal_form_idem. Qed.

Lemma cleanse_text_upper (s : text) :
  upper (cleanse_text true s) = cleanse_text true s.
Proof. unfold cleanse_text. apply upper_idem. Qed.

(** A no-break space, two em spaces, an accented letter and a sharp s. *)
Example cleanse_text_unicode :
  cleanse_text true
    ([0xA0]%N ++ "caf" ++ [0xE9; 0x2003; 0x2003]%N ++ "stra" ++ [0xDF]%N ++ "e")
  = "CAF" ++ [0xC9]%N ++ " STRASSE".
Proof. vm_compute. reflexivity. Qed.

End TextFacts.

(** * The heap: lookups, updates and frames *)

Section HeapFacts.

Context {A : Type}.
Implicit Types (l e : list A) (x y : A) (i n : nat).

Lemma replace_nth_length i x l : length (replace_nth i x l) = length l.
Proof.
  revert i. induction l as [|y l IH]; intros [|i]; simpl; auto.
Qed.

Lemma nth_error_replace_same i x l :
  i < length l -> nth_error (replace_nth i x l) i = Some x.
Proof.
  revert i. induction l as [|y l IH]; intros [|i]; simpl; intros H; try lia; auto.
  apply IH. lia.
Qed.

Lemma nth_error_replace_other i j x l :
  i <> j -> nth_error (replace_nth i x l) j = nth_error l j.
Proof.
  revert i j. induction l as [|y l IH]; intros [|i] [|j]; simpl; intros H;
    try congruence; auto.
Qed.

Lemma nth_error_app_new l x e : nth_error (l ++ x :: e) (length l) = Some x.
Proof. rewrite nth_error_app2, Nat.sub_diag; auto. Qed.

Lemma nth_error_app_old l e i x :
  nth_error l i = Some x -> nth_error (l ++ e) i = Some x.
Proof.
  intros H. rewrite nth_error_app1; auto. apply nth_error_Some. congruence.
Qed.

Lemma firstn_replace_nth i n x l :
  n <= i -> firstn n (replace_nth i x l) = firstn n l.
Proof.
  revert i n. induction l as [|y l IH]; intros [|i] [|n] H; simpl; auto; try lia.
  f_equal. apply IH. lia.
Qed.

Lemma nth_error_firstn_lt i n l :
  i < n -> nth_error (firstn n l) i = nth_error l i.
Proof.
  revert i n. induction l as [|y l IH]; intros [|i] [|n] H; simpl; auto; try lia.
  apply IH. lia.
Qed.

End HeapFacts.

Lemma frame_refl n h : frame n h h.
Proof. split; auto. Qed.

Lemma frame_trans n h1 h2 h3 : frame n h1 h2 -> frame n h2 h3 -> frame n h1 h3.
Proof. intros [L1 F1] [L2 F2]. split; [lia|congruence]. Qed.

Lemma frame_weaken m n h h' : m <= n -> frame n h h' -> frame m h h'.
Proof.
  intros Hmn [L F]. split; auto.
  replace m with (Nat.min m n) by lia. rewrite <- !firstn_firstn. now rewrite F.
Qed.

Lemma frame_app n h e : n <= length h -> frame n h (h ++ e).
Proof.
  intros H. split; [rewrite length_app; lia|].
  rewrite firstn_app. replace (n - length h) with 0 by lia.
  simpl. apply app_nil_r.
Qed.

Lemma frame_store n r o h : n <= r -> frame n h (replace_nth r o h).
Proof.
  intros H. split; [now rewrite replace_nth_length|]. now apply firstn_replace_nth.
Qed.

Lemma frame_lookup n h h' r :
  frame n h h' -> r < n -> nth_error h' r = nth_error h r.
Proof.
  intros [_ F] Hr. rewrite <- (nth_error_firstn_lt r n h'), F by auto.
  now apply nth_error_firstn_lt.
Qed.

Lemma frame_extends h h' : frame (length h) h h' -> extends h h'.
Proof.
  intros [_ F]. exists (skipn (length h) h').
  rewrite <- (firstn_skipn (length h) h') at 1. rewrite F. now rewrite firstn_all.
Qed.

Lemma holds_frame n h h' r t :
  frame n h h' -> r < n -> holds h r t -> holds h' r t.
Proof. unfold holds. intros F Hr H. now rewrite (frame_lookup _ _ _ _ F Hr). Qed.

Lemma holds_lt h r t : holds h r t -> r < length h.
Proof. unfold holds. intros H. apply nth_error_Some. congruence. Qed.

Lemma holds_frame_len h h' r t :
  frame (length h) h h' -> holds h r t -> holds h' r t.
Proof. intros F H. eapply holds_frame; eauto using holds_lt. Qed.

(** * The monad *)

Lemma bind_ok {A B} (m : M A) (k : A -> M B) h a h' :
  m h = (Ok a, h') -> bind m k h = k a h'.
Proof. unfold bind. now intros ->. Qed.

Lemma bind_err {A B} (m : M A) (k : A -> M B) h e h' :
  m h = (Err e, h') -> bind m k h = (Err e, h').
Proof. unfold bind. now intros ->. Qed.

Lemma wp_ret {A} (a : A) h (Q : A -> heap -> Prop) E : Q a h -> wp (ret a) h Q E.
Proof. auto. Qed.

Lemma wp_raise {A} e h (Q : A -> heap -> Prop) (E : error -> heap -> Prop) :
  E e h -> wp (raise e) h Q E.
Proof. auto. Qed.

Lemma wp_bind {A B} (m : M A) (k : A -> M B) h Q E :
  wp m h (fun a h' => wp (k a) h' Q E) E -> wp (bind m k) h Q E.
Proof. unfold wp, bind. destruct (m h) as [[a|e] h']; auto. Qed.

Lemma wp_conseq {A} (m : M A) h (Q Q' : A -> heap -> Prop) (E E' : error -> heap -> Prop) :
  wp m h Q E ->
  (forall a h', Q a h' -> Q' a h') ->
  (forall e h', E e h' -> E' e h') ->
  wp m h Q' E'.
Proof. unfold wp. destruct (m h) as [[a|e] h']; auto. Qed.

Lemma wp_eq_ok {A} (m : M A) h a h' (Q : A -> heap -> Prop) E :
  m h = (Ok a, h') -> Q a h' -> wp m h Q E.
Proof. unfold wp. now intros ->. Qed.

Lemma wp_eq_err {A} (m : M A) h e h' (Q : A -> heap -> Prop) (E : error -> heap -> Prop) :
  m h = (Err e, h') -> E e h' -> wp m h Q E.
Proof. unfold wp. now intros ->. Qed.

Lemma wp_returns (m : M ref) h t :
  wp m h (fun r h' => holds h' r t) (fun _ _ => False) -> returns m h t.
Proof.
  unfold wp, returns. destruct (m h) as [[r|e] h']; [|tauto]. eauto.
Qed.

(** * What the program leaves untouched *)

Lemma preserves_ret {A} n (a : A) (Q : A -> Prop) : Q a -> preserves n (ret a) Q.
Proof. intros H h _. simpl. split; [apply frame_refl|]. now intros a' [= <-]. Qed.

Lemma preserves_raise {A} n e (Q : A -> Prop) : preserves n (raise e) Q.
Proof. intros h _. simpl. split; [apply frame_refl|]. discriminate. Qed.

Lemma preserves_bind {A B} n (m : M A) (k : A -> M B) (Q : A -> Prop) (R : B -> Prop) :
  preserves n m Q -> (forall a, Q a -> preserves n (k a) R) ->
  preserves n (bind m k) R.
Proof.
  intros Hm Hk h Hn. destruct (Hm h Hn) as [F HQ]. unfold bind.
  destruct (m h) as [[a|e] h'] eqn:E; simpl in *.
  - destruct F as [L F].
    destruct (Hk a (HQ a eq_refl) h' ltac:(lia)) as [F' HR].
    split; [|exact HR]. eapply frame_trans; eauto. now split.
  - split; [exact F|discriminate].
Qed.

Lemma preserves_conseq {A} n (m : M A) (Q Q' : A -> Prop) :
  preserves n m Q -> (forall a, Q a -> Q' a) -> preserves n m Q'.
Proof. intros H HQ h Hn. destruct (H h Hn). split; auto. Qed.

Lemma preserves_lift {A} n (r : result A) : preserves n (lift r) (fun _ => True).
Proof. destruct r; [now apply preserves_ret|apply preserves_raise]. Qed.

Lemma preserves_alloc n o : preserves n (alloc o) (fun r => n <= r).
Proof.
  intros h Hn. simpl. split; [now apply frame_app|]. now intros a [= <-].
Qed.

Lemma preserves_store n r o : n <= r -> preserves n (store r o) (fun _ => True).
Proof.
  intros Hr h Hn. unfold store. destruct (r <? length h); simpl.
  - split; [now apply frame_store|auto].
  - split; [apply frame_refl|auto].
Qed.

Lemma preserves_df_read n df : preserves n (df_read df) (fun _ => True).
Proof.
  intros h _. unfold df_read. destruct (nth_error h df) as [[t|v]|]; simpl;
    (split; [apply frame_refl|auto]).
Qed.

Lemma preserves_series_values n s : preserves n (series_values s) (fun _ => True).
Proof.
  destruct s as [r|df c|df c]; simpl.
  - intros h _. destruct (nth_error h r) as [[t|v]|]; simpl;
      (split; [apply frame_refl|auto]).
  - eapply preserves_bind; [apply preserves_df_read|]. intros t _.
    destruct (index_of c (columns t)); [|apply preserves_raise].
    destruct (count c (columns t)) as [|[|k]];
      [apply preserves_raise|now apply preserves_ret|apply preserves_raise].
  - apply preserves_raise.
Qed.

Ltac pbind := eapply preserves_bind; [|intros ? ?].

Lemma preserves_df_copy n df : preserves n (df_copy df) (fun r => n <= r).
Proof. unfold df_copy. pbind; [apply preserves_df_read|apply preserves_alloc]. Qed.

Lemma preserves_df_columns n df : preserves n (df_columns df) (fun _ => True).
Proof. unfold df_columns. pbind; [apply preserves_df_read|now apply preserves_ret]. Qed.

Lemma preserves_df_getitem n df c :
  preserves n (df_getitem df c) (fun _ => True).
Proof.
  unfold df_getitem. pbind; [apply preserves_df_read|].
  destruct (count c (columns a)) as [|[|k]];
    [apply preserves_raise|now apply preserves_ret|now apply preserves_ret].
Qed.

Lemma preserves_series_copy n s :
  preserves n (series_copy s) (fun s' => fresh_series n (Some s') /\ exists r, s' = SOwn r).
Proof.
  unfold series_copy. pbind; [apply preserves_series_values|].
  pbind; [apply preserves_alloc|]. apply preserves_ret. simpl. eauto.
Qed.

Lemma preserves_series_loc n s mask : preserves n (series_loc s mask) (fun _ => True).
Proof. unfold series_loc. pbind; [apply preserves_series_values|now apply preserves_ret]. Qed.

Lemma preserves_series_loc_assign n s mask vals :
  fresh_series n (Some s) -> preserves n (series_loc_assign s mask vals) (fun _ => True).
Proof.
  intros Hs. unfold series_loc_assign. pbind; [apply preserves_series_values|].
  destruct s as [r|df c|df c]; simpl in Hs.
  - now apply preserves_store.
  - pbind; [apply preserves_df_read|]. now apply preserves_store.
  - apply preserves_raise.
Qed.

Lemma preserves_df_setitem n df c s :
  n <= df -> preserves n (df_setitem df c s) (fun _ => True).
Proof.
  intros Hdf. unfold df_setitem. pbind; [apply preserves_df_read|].
  pbind; [|now apply preserves_store].
  destruct s; [apply preserves_series_values|now apply (preserves_ret n _ (fun _ => True))].
Qed.

Lemma preserves_df_drop n df names : preserves n (df_drop df names) (fun r => n <= r).
Proof. unfold df_drop. pbind; [apply preserves_df_read|apply preserves_alloc]. Qed.

Lemma preserves_df_melt n df ids vals var val :
  preserves n (df_melt df ids vals var val) (fun r => n <= r).
Proof.
  unfold df_melt. pbind; [apply preserves_df_read|].
  pbind; [apply preserves_lift|apply preserves_alloc].
Qed.

Lemma preserves_df_filter n df mask : preserves n (df_filter df mask) (fun r => n <= r).
Proof. unfold df_filter. pbind; [apply preserves_df_read|apply preserves_alloc]. Qed.

Lemma preserves_df_merge n l r on hw sfx :
  preserves n (df_merge l r on hw sfx) (fun r => n <= r).
Proof.
  unfold df_merge. pbind; [apply preserves_df_read|].
  pbind; [apply preserves_df_read|].
  pbind; [apply preserves_lift|apply preserves_alloc].
Qed.

Lemma preserves_for_each {A} n (l : list A) (body : A -> M unit) :
  (forall x, preserves n (body x) (fun _ => True)) ->
  preserves n (for_each l body) (fun _ => True).
Proof.
  intros Hb. induction l as [|x l IH]; simpl; [now apply preserves_ret|].
  pbind; [apply Hb|exact IH].
Qed.

(** [cleanse_series] writes to its own copy only. *)
Lemma preserves_cleanse_series n s upper :
  preserves n (cleanse_series s upper) (fresh_series n).
Proof.
  destruct s as [s|]; simpl; [|now apply preserves_ret].
  assert (G : forall s0,
    preserves n
      (out <- series_copy s0 ;;
       v <- series_values out ;;
       sel <- series_loc out (map notna v) ;;
       _ <- series_loc_assign out (map notna v) (map str_strip (map astype_str sel)) ;;
       sel0 <- series_loc out (map notna v) ;;
       sub <- lift (apply_cells re_sub_cell sel0) ;;
       _ <- series_loc_assign out (map notna v) sub ;;
       _ <- (if upper
             then sel1 <- series_loc out (map notna v) ;;
                  series_loc_assign out (map notna v) (map str_upper sel1)
             else ret tt) ;;
       ret (Some out)) (fresh_series n));
    [|destruct s as [r|df c|df c]; try apply G;
      pbind; [apply preserves_df_read|];
      pbind; [apply preserves_alloc|apply preserves_raise]].
  intros s0.
  pbind; [apply preserves_series_copy|]. destruct H as [Hf _].
  pbind; [apply preserves_series_values|].
  pbind; [apply preserves_series_loc|].
  pbind; [now apply preserves_series_loc_assign|].
  pbind; [apply preserves_series_loc|].
  pbind; [apply preserves_lift|].
  pbind; [now apply preserves_series_loc_assign|].
  pbind; [|now apply preserves_ret].
  destruct upper; [|now apply (preserves_ret n _ (fun _ => True))].
  pbind; [apply preserves_series_loc|now apply preserves_series_loc_assign].
Qed.

(** [cleanse_df] writes to its own copy only. *)
Lemma preserves_cleanse_df n df cols upper :
  preserves n (cleanse_df df cols upper) (fun r => n <= r).
Proof.
  unfold cleanse_df. pbind; [apply preserves_df_copy|].
  pbind; [|now apply preserves_ret].
  apply preserves_for_each. intros c.
  pbind; [apply preserves_df_columns|].
  destruct (mem c a0); [|now apply preserves_ret].
  pbind; [apply preserves_df_getitem|].
  pbind; [apply preserves_cleanse_series|].
  now apply preserves_df_setitem.
Qed.

Lemma preserves_select_responses n df drop :
  preserves n (select_responses df drop) (fun r => n <= r).
Proof.
  unfold select_responses. pbind; [apply preserves_cleanse_df|].
  destruct drop as [[|x names]|]; try now apply preserves_ret.
  pbind; [apply preserves_df_columns|apply preserves_df_drop].
Qed.

Lemma preserves_transpose_responses n df keys :
  preserves n (transpose_responses df keys) (fun r => n <= r).
Proof.
  unfold transpose_responses. pbind; [apply preserves_df_columns|].
  pbind; [apply preserves_df_melt|].
  pbind; [apply preserves_df_getitem|].
  pbind; [apply preserves_series_values|].
  pbind; [apply preserves_df_filter|apply preserves_df_copy].
Qed.

Lemma preserves_reshape n df drop keys :
  preserves n (reshape df drop keys) (fun r => n <= r).
Proof.
  unfold reshape. pbind; [apply preserves_select_responses|].
  apply preserves_transpose_responses.
Qed.

Lemma preserves_stage_a n long recon :
  preserves n (stage_a long recon) (fun r => n <= r).
Proof.
  unfold stage_a, cleanse_long, cleanse_recon.
  pbind; [apply preserves_cleanse_df|].
  pbind; [apply preserves_cleanse_df|apply preserves_df_merge].
Qed.

(** [stage_b] writes to [joined] and to its own copies. *)
Lemma preserves_stage_b n joined numerical :
  n <= joined -> preserves n (stage_b joined numerical) (fun r => n <= r).
Proof.
  intros Hj. unfold stage_b. pbind; [apply preserves_df_columns|].
  pbind; [|].
  - instantiate (1 := fun _ => True). destruct (mem "Value" a); [|now apply preserves_ret].
    pbind; [apply preserves_df_copy|].
    pbind; [apply preserves_df_getitem|].
    pbind; [apply preserves_cleanse_series|].
    pbind; [now apply preserves_df_setitem|now apply preserves_ret].
  - pbind; [apply preserves_df_getitem|].
    pbind; [apply preserves_cleanse_series|].
    pbind; [now apply preserves_df_setitem|apply preserves_df_merge].
Qed.

Lemma preserves_build_qc_output n r1 r2 r3 drop keys rse :
  preserves n (build_qc_output r1 r2 r3 drop keys rse) (fun r => n <= r).
Proof.
  unfold build_qc_output. pbind; [apply preserves_reshape|].
  pbind; [apply preserves_stage_a|]. now apply preserves_stage_b.
Qed.

(** * [cleanse_series] computes [cleanse_cell] on every cell *)

Lemma loc_assign_masked (v : list cell) (g f : cell -> cell) :
  loc_assign (map notna v) (map g v) (map f (select (map notna v) (map g v)))
  = map (fun c => if notna c then f (g c) else g c) v.
Proof.
  induction v as [|c v IH]; [reflexivity|].
  simpl. destruct (notna c); simpl; now rewrite IH.
Qed.

Lemma loc_assign_masked_id (v : list cell) (f : cell -> cell) :
  loc_assign (map notna v) v (map f (select (map notna v) v))
  = map (fun c => if notna c then f c else c) v.
Proof.
  pose proof (loc_assign_masked v (fun c => c) f) as H.
  now rewrite map_id in H.
Qed.

Lemma apply_cells_sub (v : list cell) :
  apply_cells re_sub_cell (select (map notna v) (map strip_step v))
  = Ok (map sub_step (select (map notna v) (map strip_step v))).
Proof.
  induction v as [|c v IH]; [reflexivity|].
  simpl. destruct c; simpl; now rewrite IH.
Qed.

Lemma series_values_own h r v :
  nth_error h r = Some (OSeries v) -> series_values (SOwn r) h = (Ok v, h).
Proof. simpl. now intros ->. Qed.

Lemma df_read_eq h r t : holds h r t -> df_read r h = (Ok t, h).
Proof. unfold df_read, holds. now intros ->. Qed.

Lemma store_eq h r o : r < length h -> store r o h = (Ok tt, replace_nth r o h).
Proof.
  intros H. unfold store. apply Nat.ltb_lt in H. now rewrite H.
Qed.

Lemma replace_nth_app_new {A} (l : list A) x y e :
  replace_nth (length l) y (l ++ x :: e) = l ++ y :: e.
Proof. induction l as [|z l IH]; simpl; [reflexivity|now rewrite IH]. Qed.

(** The three updates of the own copy, from the heap [h ++ [OSeries x]]. *)
Lemma own_loc h x mask :
  series_loc (SOwn (length h)) mask (h ++ [OSeries x])
  = (Ok (select mask x), h ++ [OSeries x]).
Proof.
  unfold series_loc. erewrite bind_ok; [reflexivity|].
  apply series_values_own, nth_error_app_new.
Qed.

Lemma own_loc_assign h x mask vals :
  series_loc_assign (SOwn (length h)) mask vals (h ++ [OSeries x])
  = (Ok tt, h ++ [OSeries (loc_assign mask x vals)]).
Proof.
  unfold series_loc_assign. erewrite bind_ok
    by (apply series_values_own, nth_error_app_new).
  rewrite store_eq by (rewrite length_app; simpl; lia).
  now rewrite replace_nth_app_new.
Qed.

Lemma cleanse_series_eq h s v upper :
  series_has h s v ->
  cleanse_series (Some s) upper h
  = (Ok (Some (SOwn (length h))), h ++ [OSeries (map (cleanse_cell upper) v)]).
Proof.
  intros Hs.
  assert (Hc : series_copy s h = (Ok (SOwn (length h)), h ++ [OSeries v])).
  { unfold series_copy. erewrite bind_ok by exact Hs.
    erewrite bind_ok by reflexivity. reflexivity. }
  destruct s as [r|df c|df c]; [| |discriminate Hs]; unfold cleanse_series;
  (erewrite bind_ok by exact Hc;
  erewrite bind_ok by (apply series_values_own, nth_error_app_new);
  erewrite bind_ok by apply own_loc;
  erewrite bind_ok by apply own_loc_assign;
  rewrite (map_map astype_str str_strip), loc_assign_masked_id;
  change (map (fun c => if notna c then str_strip (astype_str c) else c) v)
    with (map strip_step v);
  erewrite bind_ok by apply own_loc;
  rewrite apply_cells_sub; unfold lift at 1;
  erewrite bind_ok by reflexivity;
  erewrite bind_ok by apply own_loc_assign;
  rewrite loc_assign_masked;
  destruct upper;
  [ erewrite bind_ok
      by (erewrite bind_ok by apply own_loc; apply own_loc_assign);
    rewrite loc_assign_masked; unfold bind, ret;
    do 4 f_equal; apply map_ext; now intros [|t|z]
  | erewrite bind_ok by reflexivity; unfold bind, ret;
    do 4 f_equal; apply map_ext; now intros [|t|z] ]).
Qed.


(** * The steps of the pipeline compute their values *)

Lemma mem_index_of c l :
  mem c l = match index_of c l with Some _ => true | None => false end.
Proof.
  unfold mem. induction l as [|x l IH]; [reflexivity|].
  simpl. destruct (Text.eqb c x); [reflexivity|].
  simpl. rewrite IH. now destruct (index_of c l).
Qed.

Lemma mem_true_index c l : mem c l = true -> exists i, index_of c l = Some i.
Proof. rewrite mem_index_of. destruct (index_of c l); [eauto|discriminate]. Qed.

Lemma mem_false_index c l : mem c l = false -> index_of c l = None.
Proof. rewrite mem_index_of. now destruct (index_of c l). Qed.

Lemma mem_In c l : mem c l = true <-> In c l.
Proof.
  unfold mem. rewrite existsb_exists. split.
  - intros (x & Hx & E). apply TextFacts.eqb_eq in E. now subst.
  - intros H. exists c. split; [exact H|apply TextFacts.eqb_refl].
Qed.

Lemma count_cons c x l :
  count c (x :: l) = (if Text.eqb c x then 1 else 0) + count c l.
Proof. unfold count. simpl. now destruct (Text.eqb c x). Qed.

Lemma count_app c l l' : count c (l ++ l') = count c l + count c l'.
Proof. unfold count. now rewrite filter_app, length_app. Qed.

Lemma mem_count c l : mem c l = negb (count c l =? 0).
Proof.
  induction l as [|x l IH]; [reflexivity|].
  rewrite count_cons. unfold mem in *. simpl. rewrite IH.
  now destruct (Text.eqb c x).
Qed.

Lemma count_zero c l : count c l = 0 <-> ~ In c l.
Proof.
  rewrite <- mem_In, mem_count. destruct (count c l); simpl; split; intros H;
    try congruence; try lia; try discriminate.
Qed.

Lemma NoDup_count c l : NoDup l -> count c l <= 1.
Proof.
  induction 1 as [|x l Hx Hl IH]; [unfold count; simpl; lia|].
  rewrite count_cons. destruct (Text.eqb c x) eqn:E; [|lia].
  apply TextFacts.eqb_eq in E. subst x.
  apply count_zero in Hx. lia.
Qed.


Lemma count_pos_index c l :
  0 < count c l -> exists i, index_of c l = Some i.
Proof.
  intros H. apply mem_true_index. rewrite mem_count.
  destruct (count c l); [lia|reflexivity].
Qed.

Lemma view_has h df t c i :
  holds h df t -> index_of c (columns t) = Some i -> count c (columns t) = 1 ->
  series_has h (SView df c) (column_values t i).
Proof.
  intros H Hi Hc. unfold series_has. simpl.
  erewrite bind_ok by (apply df_read_eq; eauto). now rewrite Hi, Hc.
Qed.

Lemma df_columns_eq h df t : holds h df t -> df_columns df h = (Ok (columns t), h).
Proof. intros H. unfold df_columns. now erewrite bind_ok by (apply df_read_eq; eauto). Qed.

Lemma df_getitem_eq h df t c :
  holds h df t -> count c (columns t) = 1 -> df_getitem df c h = (Ok (SView df c), h).
Proof.
  intros H Hc. unfold df_getitem. erewrite bind_ok by (apply df_read_eq; eauto).
  now rewrite Hc.
Qed.

Lemma df_getitem_missing h df t c :
  holds h df t -> count c (columns t) = 0 -> df_getitem df c h = (Err (KeyError c), h).
Proof.
  intros H Hc. unfold df_getitem. erewrite bind_ok by (apply df_read_eq; eauto).
  now rewrite Hc.
Qed.

Lemma df_getitem_repeated h df t c k :
  holds h df t -> count c (columns t) = S (S k) ->
  df_getitem df c h = (Ok (SColumns df c), h).
Proof.
  intros H Hc. unfold df_getitem. erewrite bind_ok by (apply df_read_eq; eauto).
  now rewrite Hc.
Qed.

Lemma df_setitem_eq h df t c s v :
  holds h df t -> series_has h s v ->
  df_setitem df c (Some s) h
  = (Ok tt, replace_nth df (ODataFrame (set_column t c v)) h).
Proof.
  intros H Hs. unfold df_setitem. erewrite bind_ok by (apply df_read_eq; eauto).
  erewrite bind_ok by exact Hs. apply store_eq. eapply holds_lt; eauto.
Qed.

Lemma df_alloc_eq h t : alloc (ODataFrame t) h = (Ok (length h), h ++ [ODataFrame t]).
Proof. reflexivity. Qed.

Lemma holds_new h t e : holds (h ++ ODataFrame t :: e) (length h) t.
Proof. apply nth_error_app_new. Qed.

Lemma holds_app h e r t : holds h r t -> holds (h ++ e) r t.
Proof. apply nth_error_app_old. Qed.

Lemma df_melt_eq h df t ids vals var val :
  holds h df t ->
  df_melt df ids vals var val h
  = match melt t ids vals var val with
    | Ok m => (Ok (length h), h ++ [ODataFrame m])
    | Err e => (Err e, h)
    end.
Proof.
  intros H. unfold df_melt. erewrite bind_ok by (apply df_read_eq; eauto).
  now destruct (melt t ids vals var val).
Qed.

Lemma df_filter_eq h df t mask :
  holds h df t ->
  df_filter df mask h = (Ok (length h), h ++ [ODataFrame (filter_rows t mask)]).
Proof.
  intros H. unfold df_filter. now erewrite bind_ok by (apply df_read_eq; eauto).
Qed.

Lemma df_copy_eq h df t :
  holds h df t -> df_copy df h = (Ok (length h), h ++ [ODataFrame t]).
Proof.
  intros H. unfold df_copy. now erewrite bind_ok by (apply df_read_eq; eauto).
Qed.

(** [df[c] = cleanse_series(df[c], upper)] updates the frame at [df] and
    no other object. *)
Lemma cleanse_in_place h df t c upper :
  holds h df t -> count c (columns t) = 1 ->
  exists h',
    (s <- df_getitem df c ;; s' <- cleanse_series (Some s) upper ;;
     df_setitem df c s') h = (Ok tt, h')
    /\ holds h' df (cleanse_column upper t c)
    /\ (forall r o, r <> df -> nth_error h r = Some o -> nth_error h' r = Some o).
Proof.
  intros H Hc. destruct (count_pos_index c (columns t)) as [i Hi]; [lia|].
  eexists. split; [|split].
  - erewrite bind_ok by (eapply df_getitem_eq; eauto).
    erewrite bind_ok by (eapply cleanse_series_eq, view_has; eauto).
    eapply df_setitem_eq.
    + apply holds_app. exact H.
    + apply series_values_own, nth_error_app_new.
  - unfold holds, cleanse_column. rewrite Hi. apply nth_error_replace_same.
    rewrite length_app. apply holds_lt in H. lia.
  - intros r o Hr Ho. rewrite nth_error_replace_other by congruence.
    now apply nth_error_app_old.
Qed.

(** With a label that several columns carry, line 21 raises. *)
Lemma cleanse_in_place_repeated h df t c upper k :
  holds h df t -> count c (columns t) = S (S k) ->
  exists h',
    (s <- df_getitem df c ;; s' <- cleanse_series (Some s) upper ;;
     df_setitem df c s') h
    = (Err multidimensional_key, h').
Proof.
  intros H Hc. eexists.
  erewrite bind_ok by (eapply df_getitem_repeated; eauto).
  apply bind_err. unfold cleanse_series.
  erewrite bind_ok by (apply df_read_eq; eauto). reflexivity.
Qed.

Lemma cleanse_column_absent upper t c :
  mem c (columns t) = false -> cleanse_column upper t c = t.
Proof. intros H. unfold cleanse_column. now rewrite (mem_false_index _ _ H). Qed.

Lemma cleanse_loop upper cols : forall h df t,
  holds h df t ->
  match cleanse_value t cols upper with
  | Ok t' =>
      exists h',
        for_each cols (fun c =>
          cs <- df_columns df ;;
          if mem c cs
          then s <- df_getitem df c ;; s' <- cleanse_series (Some s) upper ;;
               df_setitem df c s'
          else ret tt) h = (Ok tt, h')
        /\ holds h' df t'
  | Err e =>
      exists h',
        for_each cols (fun c =>
          cs <- df_columns df ;;
          if mem c cs
          then s <- df_getitem df c ;; s' <- cleanse_series (Some s) upper ;;
               df_setitem df c s'
          else ret tt) h = (Err e, h')
  end.
Proof.
  induction cols as [|c cols IH]; intros h df t H.
  - exists h. split; [reflexivity|exact H].
  - simpl for_each. simpl cleanse_value. destruct (mem c (columns t)) eqn:Hc.
    + unfold cleanse_column_value.
      destruct (count c (columns t)) as [|[|k]] eqn:Hk.
      * rewrite mem_count, Hk in Hc. discriminate.
      * simpl rbind.
        destruct (cleanse_in_place h df t c upper H Hk) as (h1 & E1 & H1 & _).
        specialize (IH h1 df _ H1).
        assert (Eh : forall k0 : unit -> M unit,
          (u <- (cs <- df_columns df ;;
                 if mem c cs
                 then s <- df_getitem df c ;; s' <- cleanse_series (Some s) upper ;;
                      df_setitem df c s'
                 else ret tt) ;; k0 u) h = k0 tt h1).
        { intros k0. erewrite bind_ok; [reflexivity|].
          erewrite bind_ok by (eapply df_columns_eq; eauto). rewrite Hc. exact E1. }
        destruct (cleanse_value (cleanse_column upper t c) cols upper) as [t'|e].
        -- destruct IH as (h2 & E2 & H2). exists h2. split; [|exact H2].
           rewrite Eh. exact E2.
        -- destruct IH as (h2 & E2). exists h2. rewrite Eh. exact E2.
      * simpl rbind.
        destruct (cleanse_in_place_repeated h df t c upper k H Hk) as (h1 & E1).
        exists h1. apply bind_err.
        erewrite bind_ok by (eapply df_columns_eq; eauto). rewrite Hc. exact E1.
    + specialize (IH h df t H).
      assert (Eh : forall k0 : unit -> M unit,
        (u <- (cs <- df_columns df ;;
               if mem c cs
               then s <- df_getitem df c ;; s' <- cleanse_series (Some s) upper ;;
                    df_setitem df c s'
               else ret tt) ;; k0 u) h = k0 tt h).
      { intros k0. erewrite bind_ok; [reflexivity|].
        erewrite bind_ok by (eapply df_columns_eq; eauto). now rewrite Hc. }
      destruct (cleanse_value t cols upper) as [t'|e].
      * destruct IH as (h2 & E2 & H2). exists h2. split; [|exact H2].
        rewrite Eh. exact E2.
      * destruct IH as (h2 & E2). exists h2. rewrite Eh. exact E2.
Qed.

Lemma computes_ok m h r h' t :
  m h = (Ok r, h') -> holds h' r t -> computes m h (Ok t).
Proof. intros E H. unfold computes, wp. rewrite E. eauto. Qed.

Lemma computes_err m h e h' : m h = (Err e, h') -> computes m h (Err e).
Proof. intros E. unfold computes, wp. now rewrite E. Qed.

Lemma computes_returns m h t : computes m h (Ok t) -> returns m h t.
Proof.
  unfold computes, wp, returns. destruct (m h) as [[r|e] h'].
  - intros (t' & [= <-] & H). eauto.
  - discriminate.
Qed.

Lemma computes_raises m h e : computes m h (Err e) -> raises m h e.
Proof.
  unfold computes, wp, raises. destruct (m h) as [[r|e'] h'].
  - intros (t' & [=] & _).
  - intros [= <-]. eauto.
Qed.

Lemma returns_computes m h v t : computes m h v -> returns m h t -> v = Ok t.
Proof.
  unfold computes, wp, returns, holds. intros C (r & h' & E & H). rewrite E in C.
  destruct C as (t' & -> & H'). congruence.
Qed.


(** Sequencing: the heap [h] is below everything the first step writes. *)
Lemma computes_bind (m : M ref) (k : ref -> M ref) h v k' (Q : ref -> Prop) :
  computes m h v ->
  preserves (length h) m Q ->
  (forall r h' t, v = Ok t -> holds h' r t -> frame (length h) h h' ->
                  computes (k r) h' (k' t)) ->
  computes (bind m k) h (rbind v k').
Proof.
  intros C P K. destruct (P h (le_n _)) as [F _].
  unfold computes, wp, bind in *. destruct (m h) as [[r|e] h1]; simpl in *.
  - destruct C as (t & -> & H). simpl. apply (K r h1 t eq_refl H F).
  - subst v. reflexivity.
Qed.

Lemma cleanse_df_computes h df t cols upper :
  holds h df t ->
  computes (cleanse_df df cols upper) h (cleanse_value t cols upper).
Proof.
  intros H. unfold cleanse_df.
  pose proof (cleanse_loop upper cols (h ++ [ODataFrame t]) (length h) t
                (holds_new _ _ _)) as L.
  destruct (cleanse_value t cols upper) as [t'|e].
  - destruct L as (h' & E & H'). eapply computes_ok; [|exact H'].
    erewrite bind_ok by (eapply df_copy_eq; eauto).
    erewrite bind_ok by exact E. reflexivity.
  - destruct L as (h' & E). eapply computes_err.
    erewrite bind_ok by (eapply df_copy_eq; eauto).
    erewrite bind_err by exact E. reflexivity.
Qed.

Lemma select_responses_computes h df t drop :
  holds h df t -> computes (select_responses df drop) h (Ok (pruned t drop)).
Proof.
  intros H. unfold select_responses.
  change (Ok (pruned t drop)) with
    (rbind (cleanse_value t [] false)
       (fun t => Ok (pruned t drop))).
  eapply computes_bind; [now apply cleanse_df_computes|apply preserves_cleanse_df|].
  intros r h' t' [= <-] H' _. simpl.
  destruct drop as [[|x names]|]; try (eapply computes_ok; [reflexivity|exact H']).
  eapply computes_ok.
  - erewrite bind_ok by (eapply df_columns_eq; eauto).
    unfold df_drop. erewrite bind_ok by (apply df_read_eq; eauto). reflexivity.
  - apply holds_new.
Qed.

Lemma melt_columns t ids vals var val m :
  melt t ids vals var val = Ok m -> columns m = ids ++ [var; val].
Proof.
  unfold melt. destruct (mem val (columns t)); [discriminate|].
  destruct (find _ _); [discriminate|].
  destruct (first_repeated _ _); [discriminate|]. now intros [= <-].
Qed.

(** The table that [melt] returns has one column called [value_name]. *)
Lemma melt_value_count t ids vals var val m :
  melt t ids vals var val = Ok m -> var <> val -> count val (columns m) = 1.
Proof.
  intros Hm Hne. rewrite (melt_columns _ _ _ _ _ _ Hm), count_app.
  unfold melt in Hm. destruct (mem val (columns t)) eqn:Hv; [discriminate|].
  destruct (find _ _) eqn:Hf; [discriminate|].
  assert (Hz : count val ids = 0).
  { apply count_zero. intros Hin.
    pose proof (find_none _ _ Hf val (in_or_app _ _ _ (or_introl Hin))) as Hp.
    apply negb_false_iff in Hp. congruence. }
  rewrite Hz, !count_cons.
  apply not_eq_sym, TextFacts.eqb_neq in Hne. rewrite Hne, TextFacts.eqb_refl.
  reflexivity.
Qed.

Lemma text_literals_differ : ("Name" : text) <> "Value".
Proof. discriminate. Qed.

Lemma transpose_responses_computes h df t keys :
  holds h df t -> computes (transpose_responses df keys) h (long_value t keys).
Proof.
  intros H. unfold transpose_responses, long_value.
  fold (key_fields t keys).
  unfold computes, wp.
  erewrite bind_ok by (eapply df_columns_eq; eauto).
  fold (key_fields t keys). fold (data_cols t keys).
  pose proof (df_melt_eq h df t (key_fields t keys) (data_cols t keys)
                "Name" "Value" H) as Em.
  pose proof (melt_value_count t (key_fields t keys) (data_cols t keys)
                "Name" "Value") as Hcount.
  destruct (melt t (key_fields t keys) (data_cols t keys) "Name" "Value")
    as [m|e]; simpl; [|now erewrite bind_err by exact Em].
  specialize (Hcount m eq_refl text_literals_differ).
  erewrite bind_ok by exact Em.
  assert (Hm : holds (h ++ [ODataFrame m]) (length h) m) by apply holds_new.
  destruct (count_pos_index "Value" (columns m)) as [i Ei]; [lia|].
  rewrite Ei.
  erewrite bind_ok by (eapply df_getitem_eq; eauto).
  erewrite bind_ok by (eapply view_has; eauto).
  erewrite bind_ok by (eapply df_filter_eq; eauto).
  erewrite df_copy_eq by apply holds_new.
  eexists. split; [reflexivity|]. apply holds_new.
Qed.

Lemma reshape_computes h df t drop keys :
  holds h df t -> computes (reshape df drop keys) h (reshape_value t drop keys).
Proof.
  intros H. unfold reshape, reshape_value.
  change (long_value (pruned t drop) keys)
    with (rbind (Ok (pruned t drop)) (fun p => long_value p keys)).
  eapply computes_bind;
    [now apply select_responses_computes|apply preserves_select_responses|].
  intros r h' t' [= <-] H' _. now apply transpose_responses_computes.
Qed.

Lemma df_merge_computes h l r tl tr on hw sfx :
  holds h l tl -> holds h r tr ->
  computes (df_merge l r on hw sfx) h (merge tl tr on hw sfx).
Proof.
  intros Hl Hr. unfold df_merge, computes, wp.
  erewrite bind_ok by (apply df_read_eq; eauto).
  erewrite bind_ok by (apply df_read_eq; eauto).
  destruct (merge tl tr on hw sfx) as [t|e]; simpl; [|reflexivity].
  unfold bind; simpl. eexists. split; [reflexivity|apply holds_new].
Qed.

Lemma stage_a_computes h rl rr long recon :
  holds h rl long -> holds h rr recon ->
  computes (stage_a rl rr) h (stage_a_value long recon).
Proof.
  intros Hl Hr. unfold stage_a, stage_a_value, cleanse_long, cleanse_recon.
  eapply computes_bind; [now apply cleanse_df_computes|apply preserves_cleanse_df|].
  intros r1 h1 t1 _ H1 F1.
  eapply computes_bind;
    [apply cleanse_df_computes; eapply holds_frame_len; eauto
    |apply preserves_cleanse_df|].
  intros r2 h2 t2 _ H2 F2.
  apply df_merge_computes; [|exact H2]. eapply holds_frame_len; eauto.
Qed.

(** Lines 92-94: the numeric table with its [Value] cleansed, in a copy. *)
Lemma cleanse_numerical h rj rn joined numerical :
  holds h rj joined -> holds h rn numerical ->
  match (if mem "Value" (columns numerical)
         then cleanse_column_value true numerical "Value"
         else Ok numerical) with
  | Ok n =>
      exists h1 rn',
        (cs <- df_columns rn ;;
         (if mem "Value" cs
          then numerical_df <- df_copy rn ;;
               s <- df_getitem numerical_df "Value" ;;
               s' <- cleanse_series (Some s) true ;;
               _ <- df_setitem numerical_df "Value" s' ;;
               ret numerical_df
          else ret rn)) h = (Ok rn', h1)
        /\ holds h1 rn' n
        /\ holds h1 rj joined
        /\ (mem "Value" (columns joined) = true -> rn' <> rj)
  | Err e =>
      exists h1,
        (cs <- df_columns rn ;;
         (if mem "Value" cs
          then numerical_df <- df_copy rn ;;
               s <- df_getitem numerical_df "Value" ;;
               s' <- cleanse_series (Some s) true ;;
               _ <- df_setitem numerical_df "Value" s' ;;
               ret numerical_df
          else ret rn)) h = (Err e, h1)
  end.
Proof.
  intros Hj Hn. destruct (mem "Value" (columns numerical)) eqn:Hc.
  - unfold cleanse_column_value.
    destruct (count "Value" (columns numerical)) as [|[|k]] eqn:Hk.
    + rewrite mem_count, Hk in Hc. discriminate.
    + destruct (cleanse_in_place (h ++ [ODataFrame numerical]) (length h) numerical
                  "Value" true (holds_new _ _ _) Hk) as (h1 & E1 & H1 & K1).
      exists h1, (length h). repeat split.
      * erewrite bind_ok by (eapply df_columns_eq; eauto). rewrite Hc.
        erewrite bind_ok by (eapply df_copy_eq; eauto).
        unfold bind in E1 |- *.
        destruct (df_getitem _ _ _) as [[s|e] hh]; [|discriminate].
        destruct (cleanse_series _ _ _) as [[s'|e] hh']; [|discriminate].
        now rewrite E1.
      * exact H1.
      * apply K1; [apply holds_lt in Hj; lia|]. now apply nth_error_app_old.
      * intros _. apply holds_lt in Hj. lia.
    + destruct (cleanse_in_place_repeated (h ++ [ODataFrame numerical]) (length h)
                  numerical "Value" true k (holds_new _ _ _) Hk) as (h1 & E1).
      exists h1.
      erewrite bind_ok by (eapply df_columns_eq; eauto). rewrite Hc.
      erewrite bind_ok by (eapply df_copy_eq; eauto).
      unfold bind in E1 |- *.
      destruct (df_getitem _ _ _) as [[s|e] hh];
        [|injection E1 as -> ->; reflexivity].
      destruct (cleanse_series _ _ _) as [[s'|e] hh'];
        [|injection E1 as -> ->; reflexivity].
      destruct (df_setitem _ _ _ _) as [[u|e] hh''];
        [discriminate|injection E1 as -> ->; reflexivity].
  - exists h, rn. repeat split.
    + erewrite bind_ok by (eapply df_columns_eq; eauto). now rewrite Hc.
    + exact Hn.
    + exact Hj.
    + intros Hv ->. unfold holds in *. congruence.
Qed.

Lemma stage_b_computes h rj rn joined numerical :
  holds h rj joined -> holds h rn numerical ->
  computes (stage_b rj rn) h (stage_b_value joined numerical).
Proof.
  intros Hj Hn. unfold stage_b, stage_b_value.
  pose proof (cleanse_numerical h rj rn joined numerical Hj Hn) as Hnum.
  destruct (if mem "Value" (columns numerical)
            then cleanse_column_value true numerical "Value"
            else Ok numerical) as [n|e].
  2:{ destruct Hnum as (h1 & E). simpl rbind. eapply computes_err.
      unfold bind in E |- *.
      destruct (df_columns rn h) as [[cs|e0] hh];
        [|injection E as -> ->; reflexivity].
      now rewrite E. }
  destruct Hnum as (h1 & rn' & E & Hn' & Hj' & Hne).
  simpl rbind. unfold computes, wp.
  assert (Eb : forall k : ref -> M ref,
    (cs <- df_columns rn ;;
     numerical_df <- (if mem "Value" cs
      then numerical_df <- df_copy rn ;;
           s <- df_getitem numerical_df "Value" ;;
           s' <- cleanse_series (Some s) true ;;
           _ <- df_setitem numerical_df "Value" s' ;;
           ret numerical_df
      else ret rn) ;; k numerical_df) h = k rn' h1).
  { intros k. unfold bind in E |- *.
    destruct (df_columns rn h) as [[cs|e] hh]; [|discriminate].
    now rewrite E. }
  rewrite Eb. unfold cleanse_column_value.
  destruct (count "Value" (columns joined)) as [|[|k]] eqn:Hk.
  - erewrite bind_err by (eapply df_getitem_missing; eauto). reflexivity.
  - destruct (cleanse_in_place h1 rj joined "Value" true Hj' Hk) as (h2 & E2 & H2 & K2).
    assert (E2' : forall k : unit -> M ref,
      (s <- df_getitem rj "Value" ;; s' <- cleanse_series (Some s) true ;;
       u <- df_setitem rj "Value" s' ;; k u) h1 = k tt h2).
    { intros k. unfold bind in E2 |- *.
      destruct (df_getitem _ _ _) as [[s|e] hh]; [|discriminate].
      destruct (cleanse_series _ _ _) as [[s'|e] hh']; [|discriminate].
      now rewrite E2. }
    rewrite E2'. simpl rbind.
    apply (df_merge_computes h2 rj rn'); [exact H2|].
    apply K2; [|exact Hn']. apply Hne. rewrite mem_count, Hk. reflexivity.
  - destruct (cleanse_in_place_repeated h1 rj joined "Value" true k Hj' Hk)
      as (h2 & E2).
    simpl rbind.
    unfold bind in E2 |- *.
    destruct (df_getitem _ _ _) as [[s|e] hh];
      [|injection E2 as -> ->; reflexivity].
    destruct (cleanse_series _ _ _) as [[s'|e] hh'];
      [|injection E2 as -> ->; reflexivity].
    destruct (df_setitem _ _ _ _) as [[u|e] hh''];
      [discriminate|injection E2 as -> ->; reflexivity].
Qed.

Lemma build_qc_output_computes h r1 r2 r3 t1 t2 t3 drop keys rse :
  holds h r1 t1 -> holds h r2 t2 -> holds h r3 t3 ->
  computes (build_qc_output r1 r2 r3 drop keys rse) h
    (build_value t1 t2 t3 drop keys).
Proof.
  intros H1 H2 H3. unfold build_qc_output, build_value.
  eapply computes_bind; [now apply reshape_computes|apply preserves_reshape|].
  intros rl h1 long _ Hl F1.
  eapply computes_bind;
    [apply stage_a_computes; [exact Hl|eapply holds_frame_len; eauto]
    |apply preserves_stage_a|].
  intros rj h2 joined _ Hj F2.
  apply stage_b_computes; [exact Hj|].
  eapply holds_frame_len; [exact F2|]. eapply holds_frame_len; eauto.
Qed.

(** A run on a concrete heap is settled by evaluation. *)
Lemma returns_by_evaluation (m : M ref) (h : heap) (t : DataFrame) :
  match m h with
  | (Ok r, h') => nth_error h' r = Some (ODataFrame t)
  | (Err _, _) => False
  end ->
  returns m h t.
Proof.
  unfold returns, holds. destruct (m h) as [[r|e] h']; [eauto|tauto].
Qed.

Lemma raises_by_evaluation {A : Type} (m : M A) (h : heap) (e : error) :
  fst (m h) = Err e -> raises m h e.
Proof.
  unfold raises. destruct (m h) as [r h']. simpl. intros ->. eauto.
Qed.

(** * Frames: cleansing *)

Lemma cleanse_cell_idem u c : cleanse_cell u (cleanse_cell u c) = cleanse_cell u c.
Proof.
  destruct c as [|s|z]; simpl; [reflexivity| |];
    now rewrite TextFacts.cleanse_text_idem.
Qed.

Lemma cleanse_cell_notna u c : notna (cleanse_cell u c) = notna c.
Proof. now destruct c. Qed.

Lemma cell_eqb_eq a b : cell_eqb a b = true <-> a = b.
Proof.
  destruct a, b; simpl; split; intros H; try discriminate; try reflexivity.
  - apply TextFacts.eqb_eq in H. now subst.
  - injection H as ->. apply TextFacts.eqb_refl.
  - apply Z.eqb_eq in H. now subst.
  - injection H as ->. apply Z.eqb_refl.
Qed.

Lemma index_of_nth c l i : index_of c l = Some i -> nth_error l i = Some c.
Proof.
  revert i. induction l as [|x l IH]; intros i; simpl; [discriminate|].
  destruct (Text.eqb c x) eqn:E.
  - intros [= <-]. apply TextFacts.eqb_eq in E. now subst.
  - destruct (index_of c l); [|discriminate]. intros [= <-]. simpl. now apply IH.
Qed.

Lemma index_of_lt c l i : index_of c l = Some i -> i < length l.
Proof. intros H. apply nth_error_Some. rewrite (index_of_nth _ _ _ H). discriminate. Qed.

Lemma index_of_inj c c' l i :
  index_of c l = Some i -> index_of c' l = Some i -> c = c'.
Proof.
  intros H H'. apply index_of_nth in H, H'. congruence.
Qed.

Lemma index_of_app c l l' i :
  index_of c l = Some i -> index_of c (l ++ l') = Some i.
Proof.
  revert i. induction l as [|x l IH]; intros i; simpl; [discriminate|].
  destruct (Text.eqb c x); [auto|].
  destruct (index_of c l); [|discriminate]. intros [= <-]. now rewrite (IH _ eq_refl).
Qed.

Lemma In_index_of c l : In c l -> exists i, index_of c l = Some i.
Proof. intros H. apply mem_true_index. now apply mem_In. Qed.

Lemma assign_rows_map i (f : cell -> cell) rs :
  assign_rows i rs (map f (map (fun r => nth i r NA) rs))
  = map (fun r => replace_nth i (f (nth i r NA)) r) rs.
Proof. induction rs as [|r rs IH]; simpl; [reflexivity|now rewrite IH]. Qed.

Lemma cleanse_column_columns u t c : columns (cleanse_column u t c) = columns t.
Proof.
  unfold cleanse_column, set_column. now destruct (index_of c (columns t)).
Qed.

Lemma cleanse_column_rows u t c :
  rows (cleanse_column u t c)
  = map (fun r => match index_of c (columns t) with
                  | Some i => cleanse_at u i r
                  | None => r
                  end) (rows t).
Proof.
  unfold cleanse_column, set_column. destruct (index_of c (columns t)) eqn:E.
  - simpl. unfold column_values. apply assign_rows_map.
  - now rewrite map_id.
Qed.

(** The loop of [cleanse_df] fails when a listed label is carried by
    several columns, and only then. *)
Lemma cleanse_value_eq u cols : forall t,
  cleanse_value t cols u
  = if repeated_in t cols then Err multidimensional_key
    else Ok (cleanse_frame t cols u).
Proof.
  unfold cleanse_frame, repeated_in.
  induction cols as [|c cols IH]; intros t; [reflexivity|].
  simpl. destruct (mem c (columns t)) eqn:Hc.
  - unfold cleanse_column_value.
    destruct (count c (columns t)) as [|[|k]] eqn:Hk.
    + rewrite mem_count, Hk in Hc. discriminate.
    + simpl. rewrite IH, cleanse_column_columns. reflexivity.
    + reflexivity.
  - assert (Hk : count c (columns t) = 0).
    { rewrite mem_count in Hc. now destruct (count c (columns t)). }
    rewrite Hk, cleanse_column_absent by exact Hc. simpl. apply IH.
Qed.

Lemma nodup_not_repeated t cols : NoDup (columns t) -> repeated_in t cols = false.
Proof.
  intros Hn. unfold repeated_in. apply not_true_is_false. intros H.
  apply existsb_exists in H. destruct H as (c & _ & Hc).
  apply Nat.leb_le in Hc. pose proof (NoDup_count c _ Hn). lia.
Qed.

(** On a frame with distinct labels the loop of [cleanse_df] never fails. *)
Lemma cleanse_value_nodup u cols t :
  NoDup (columns t) -> cleanse_value t cols u = Ok (cleanse_frame t cols u).
Proof. intros Hn. now rewrite cleanse_value_eq, nodup_not_repeated. Qed.

Lemma cleanse_value_ok u cols t t' :
  cleanse_value t cols u = Ok t' -> t' = cleanse_frame t cols u.
Proof.
  rewrite cleanse_value_eq. destruct (repeated_in t cols); [discriminate|].
  now intros [= <-].
Qed.

Lemma cleanse_column_value_ok u t c t' :
  cleanse_column_value u t c = Ok t' ->
  t' = cleanse_column u t c /\ count c (columns t) = 1.
Proof.
  unfold cleanse_column_value. destruct (count c (columns t)) as [|[|k]];
    try discriminate. now intros [= <-].
Qed.


Lemma cleanse_frame_columns u cols : forall t,
  columns (cleanse_frame t cols u) = columns t.
Proof.
  unfold cleanse_frame. induction cols as [|c cols IH]; intros t; simpl; [reflexivity|].
  now rewrite IH, cleanse_column_columns.
Qed.

Lemma cleanse_frame_rows u cols : forall t,
  rows (cleanse_frame t cols u) = map (cleanse_row u (columns t) cols) (rows t).
Proof.
  unfold cleanse_frame, cleanse_row.
  induction cols as [|c cols IH]; intros t; simpl; [now rewrite map_id|].
  rewrite IH, cleanse_column_columns, cleanse_column_rows, map_map. reflexivity.
Qed.

Lemma nth_replace_nth {A} i j (x d : A) l :
  nth j (replace_nth i x l) d
  = if (i =? j) && (j <? length l) then x else nth j l d.
Proof.
  revert i j. induction l as [|y l IH]; intros i j.
  - simpl. rewrite andb_false_r. now destruct i.
  - destruct i as [|i], j as [|j]; simpl; auto.
Qed.

Lemma nth_cleanse_at u i j r :
  nth j (cleanse_at u i r) NA
  = if i =? j then cleanse_cell u (nth j r NA) else nth j r NA.
Proof.
  unfold cleanse_at. rewrite nth_replace_nth.
  destruct (i =? j) eqn:E; [|reflexivity]. apply Nat.eqb_eq in E. subst. simpl.
  destruct (j <? length r) eqn:L; [reflexivity|].
  apply Nat.ltb_ge in L. now rewrite nth_overflow.
Qed.

Lemma cleanse_at_length u i r : length (cleanse_at u i r) = length r.
Proof. apply replace_nth_length. Qed.

Lemma cleanse_row_length u labels cols : forall r,
  length (cleanse_row u labels cols r) = length r.
Proof.
  unfold cleanse_row. induction cols as [|c cols IH]; intros r; simpl; [reflexivity|].
  rewrite IH. destruct (index_of c labels); [apply cleanse_at_length|reflexivity].
Qed.

Lemma nth_cleanse_row u labels cols j : forall r,
  nth j (cleanse_row u labels cols r) NA
  = if existsb (fun c => match index_of c labels with
                         | Some i => i =? j
                         | None => false
                         end) cols
    then cleanse_cell u (nth j r NA) else nth j r NA.
Proof.
  unfold cleanse_row. induction cols as [|c cols IH]; intros r; simpl; [reflexivity|].
  rewrite IH. destruct (index_of c labels) as [i|]; simpl; [|reflexivity].
  rewrite nth_cleanse_at. destruct (i =? j); simpl; [|reflexivity].
  rewrite cleanse_cell_idem. now destruct (existsb _ cols).
Qed.

Lemma cleanse_cell_na u : cleanse_cell u NA = NA.
Proof. reflexivity. Qed.

(** A cell of a cleansed row, by its label. *)
Lemma cell_at_cleanse_frame u t cols r c :
  cell_at (cleanse_frame t cols u) (cleanse_row u (columns t) cols r) c
  = if mem c cols then cleanse_cell u (cell_at t r c) else cell_at t r c.
Proof.
  unfold cell_at. rewrite cleanse_frame_columns.
  destruct (index_of c (columns t)) as [j|] eqn:E; [|now destruct (mem c cols)].
  rewrite nth_cleanse_row. unfold mem.
  replace (existsb _ cols) with (existsb (Text.eqb c) cols); [reflexivity|].
  induction cols as [|c' cols IH]; [reflexivity|]. simpl. rewrite IH. f_equal.
  destruct (Text.eqb c c') eqn:Ec.
  - apply TextFacts.eqb_eq in Ec. subst. rewrite E. symmetry. apply Nat.eqb_refl.
  - destruct (index_of c' (columns t)) as [i|] eqn:E'; [|reflexivity].
    destruct (i =? j) eqn:Eij; [|reflexivity]. apply Nat.eqb_eq in Eij. subst.
    rewrite (index_of_inj _ _ _ _ E E'), TextFacts.eqb_refl in Ec. discriminate.
Qed.

Lemma cleanse_frame_rect u t cols : rect t -> rect (cleanse_frame t cols u).
Proof.
  unfold rect. rewrite cleanse_frame_columns, cleanse_frame_rows, Forall_map.
  apply Forall_impl. intros r. now rewrite cleanse_row_length.
Qed.

Lemma cleanse_column_rect u t c : rect t -> rect (cleanse_column u t c).
Proof.
  unfold rect. rewrite cleanse_column_columns, cleanse_column_rows, Forall_map.
  apply Forall_impl. intros r.
  destruct (index_of c (columns t)); [now rewrite cleanse_at_length|auto].
Qed.

(** * Frames: reshaping *)

Lemma select_map_filter {A} (f : A -> bool) (l : list A) :
  select (map f l) l = filter f l.
Proof. induction l as [|x l IH]; simpl; [reflexivity|]. now rewrite IH. Qed.

Lemma filter_In_all {A} (f : A -> bool) (l : list A) :
  (forall x, In x l -> f x = true) -> filter f l = l.
Proof.
  induction l as [|x l IH]; intros H; simpl; [reflexivity|].
  rewrite (H x (or_introl eq_refl)), IH; auto. intros y Hy. apply H. now right.
Qed.

Lemma find_none_all {A} (f : A -> bool) (l : list A) :
  (forall x, In x l -> f x = false) -> find f l = None.
Proof.
  induction l as [|x l IH]; intros H; simpl; [reflexivity|].
  rewrite (H x (or_introl eq_refl)). apply IH. intros y Hy. apply H. now right.
Qed.

Lemma key_fields_In p keys c : In c (key_fields p keys) -> In c (columns p).
Proof. unfold key_fields. rewrite filter_In. intros [_ H]. now apply mem_In. Qed.

Lemma data_cols_In p keys c : In c (data_cols p keys) -> In c (columns p).
Proof. unfold data_cols. rewrite filter_In. tauto. Qed.

Lemma first_repeated_none seen l :
  first_repeated seen l = None
  <-> NoDup l /\ forall c, In c l -> ~ In c seen.
Proof.
  revert seen. induction l as [|c r IH]; intros seen; simpl.
  - split; [intros _; split; [constructor|tauto]|reflexivity].
  - destruct (mem c seen) eqn:E.
    + apply mem_In in E. split; [discriminate|]. intros [_ H]. exfalso.
      apply (H c); auto.
    + assert (Hc : ~ In c seen) by (rewrite <- mem_In; congruence).
      rewrite IH. split.
      * intros [Hn H]. split.
        -- constructor; [|exact Hn]. intros Hin. apply (H c Hin). now left.
        -- intros c' [<-|Hin]; [exact Hc|]. intros Hs. apply (H c' Hin). now right.
      * intros [Hn H]. inversion Hn as [|x xs Hx Hr]; subst. split; [exact Hr|].
        intros c' Hin [<-|Hs]; [tauto|]. apply (H c'); auto.
Qed.

Lemma first_repeated_nodup l : first_repeated [] l = None <-> NoDup l.
Proof. rewrite first_repeated_none. split; [tauto|]. intros H. split; auto. Qed.

Lemma first_repeated_In seen l c : first_repeated seen l = Some c -> In c l.
Proof.
  revert seen. induction l as [|x r IH]; intros seen; simpl; [discriminate|].
  destruct (mem x seen); [intros [= <-]; now left|]. intros H. right. eauto.
Qed.

(** [melt] finds every label it is given: it fails on a [Value] column and
    on a key field that is listed twice. *)
Lemma melt_keys_data p keys :
  melt p (key_fields p keys) (data_cols p keys) "Name" "Value"
  = if mem "Value" (columns p)
    then Err (value_name_error "Value")
    else match first_repeated [] (key_fields p keys) with
         | Some c => Err (KeyError c)
         | None =>
             Ok (mkDF (key_fields p keys ++ ["Name"; "Value"])
                   (flat_map
                      (fun v => map (fun r => key_cells p (key_fields p keys) v r
                                              ++ [Str v; cell_at p r v]) (rows p))
                      (data_cols p keys)))
         end.
Proof.
  unfold melt. destruct (mem "Value" (columns p)); [reflexivity|].
  rewrite find_none_all; [reflexivity|].
  intros c Hc. apply negb_false_iff, mem_In. apply in_app_or in Hc.
  destruct Hc; eauto using key_fields_In, data_cols_In.
Qed.

Lemma index_of_app_r c l l' :
  ~ In c l -> index_of c (l ++ l')
              = match index_of c l' with Some i => Some (length l + i) | None => None end.
Proof.
  induction l as [|x l IH]; intros H; simpl.
  - now destruct (index_of c l').
  - destruct (Text.eqb c x) eqn:E.
    + apply TextFacts.eqb_eq in E. subst. exfalso. apply H. now left.
    + rewrite IH by (intros H'; apply H; now right).
      now destruct (index_of c l').
Qed.

Lemma value_index p keys :
  mem "Value" (columns p) = false ->
  index_of "Value" (key_fields p keys ++ ["Name"; "Value"])
  = Some (length (key_fields p keys) + 1).
Proof.
  intros H. rewrite index_of_app_r; [reflexivity|].
  intros Hin. apply key_fields_In, mem_In in Hin. congruence.
Qed.

(** The long table, in closed form. *)
Lemma long_value_eq p keys :
  long_value p keys
  = if mem "Value" (columns p)
    then Err (value_name_error "Value")
    else match first_repeated [] (key_fields p keys) with
         | Some c => Err (KeyError c)
         | None =>
             Ok (mkDF (key_fields p keys ++ ["Name"; "Value"])
                   (filter (fun row => notna (nth (length (key_fields p keys) + 1) row NA))
                      (flat_map
                         (fun v => map (fun r => key_cells p (key_fields p keys) v r
                                                 ++ [Str v; cell_at p r v]) (rows p))
                         (data_cols p keys))))
         end.
Proof.
  unfold long_value. rewrite melt_keys_data.
  destruct (mem "Value" (columns p)) eqn:E; [reflexivity|].
  destruct (first_repeated [] (key_fields p keys)); [reflexivity|].
  simpl. rewrite (value_index _ _ E). unfold filter_rows, column_values. simpl.
  now rewrite map_map, (select_map_filter (fun row => notna (nth _ row NA))).
Qed.

Lemma key_cells_length p K v r : length (key_cells p K v r) = length K.
Proof. apply length_map. Qed.


Lemma long_row_value {K : list cell} v x :
  nth (length K + 1) (K ++ [v; x]) NA = x.
Proof. rewrite app_nth2 by lia. now replace (length K + 1 - length K) with 1 by lia. Qed.

Lemma filter_flat_map_cons_length {A B} (f : B -> bool) (h : A -> B) (k : A -> list B) l :
  length (filter f (flat_map (fun b => h b :: k b) l))
  = length (filter f (map h l)) + length (filter f (flat_map k l)).
Proof.
  induction l as [|x l IH]; simpl; [reflexivity|].
  destruct (f (h x)); simpl; rewrite !filter_app, !length_app, IH; lia.
Qed.

(** Counting by columns and counting by rows agree. *)
Lemma count_swap {A B C} (f : C -> bool) (g : A -> B -> C) (xs : list A) (ys : list B) :
  length (filter f (flat_map (fun a => map (g a) ys) xs))
  = length (filter f (flat_map (fun b => map (fun a => g a b) xs) ys)).
Proof.
  induction xs as [|a xs IH]; simpl.
  - induction ys as [|b ys IHy]; simpl; auto.
  - rewrite filter_app, length_app, IH.
    now rewrite (filter_flat_map_cons_length f (g a) (fun b => map (fun a => g a b) xs)).
Qed.

Lemma long_rows_count p K V :
  length (filter (fun row => notna (nth (length K + 1) row NA))
            (flat_map (fun v => map (fun r => key_cells p K v r
                                              ++ [Str v; cell_at p r v]) (rows p)) V))
  = count_present p V.
Proof.
  unfold count_present.
  transitivity (length (filter notna
                  (flat_map (fun v => map (fun r => cell_at p r v) (rows p)) V)));
    [|exact (count_swap notna (fun v r => cell_at p r v) V (rows p))].
  induction V as [|v V IH]; simpl; [reflexivity|].
  rewrite !filter_app, !length_app, IH. f_equal.
  clear IH. induction (rows p) as [|r rs IH]; simpl; [reflexivity|].
  rewrite <- (key_cells_length p K v r) at 1. rewrite long_row_value.
  destruct (notna (cell_at p r v)); simpl; now rewrite IH.
Qed.

Lemma long_value_rect p keys long : long_value p keys = Ok long -> rect long.
Proof.
  rewrite long_value_eq. destruct (mem "Value" (columns p)); [discriminate|].
  destruct (first_repeated [] (key_fields p keys)); [discriminate|].
  intros [= <-]. unfold rect. simpl. apply Forall_forall. intros row Hr.
  apply filter_In in Hr. destruct Hr as [Hr _]. apply in_flat_map in Hr.
  destruct Hr as (v & _ & Hr). apply in_map_iff in Hr. destruct Hr as (r & <- & _).
  now rewrite !length_app, key_cells_length.
Qed.

(** * Frames: joins *)

Lemma rename_overlap_empty other l : map (rename_overlap other "") l = l.
Proof.
  rewrite <- (map_id l) at 2. apply map_ext. intros c. unfold rename_overlap.
  destruct (mem c other); [apply app_nil_r|reflexivity].
Qed.

Lemma suffix_dups_same l : forall seen, suffix_dups seen seen l l = [].
Proof.
  induction l as [|x l IH]; intros seen; simpl; [reflexivity|].
  rewrite IH. now destruct (mem x seen).
Qed.

(** A merge whose left suffix is empty keeps the labels of its left frame. *)
Lemma merge_left_eq L R on hw rs :
  merge L R on hw ("", rs)
  = match index_of on (columns L), index_of on (columns R) with
    | Some i, Some j =>
        match suffix_clash (columns L) (columns R) on rs with
        | [] => Ok (mkDF (columns L ++ right_labels (columns L) (columns R) on rs)
                      (flat_map (merge_row hw i j (length (remove_nth j (columns R)))
                                   (rows R)) (rows L)))
        | d :: ds => Err (MergeError (d :: ds))
        end
    | _, _ => Err (KeyError on)
    end.
Proof.
  unfold merge, suffix_clash, right_labels, remove_label.
  destruct (index_of on (columns L)) as [i|]; [|reflexivity].
  destruct (index_of on (columns R)) as [j|]; [|reflexivity].
  simpl fst. simpl snd. rewrite rename_overlap_empty, suffix_dups_same. reflexivity.
Qed.




Lemma merge_row_prefix hw i j w rr l o :
  In o (merge_row hw i j w rr l) -> exists rest, o = l ++ rest.
Proof.
  unfold merge_row. intros H.
  destruct (matches i j rr l) as [|m ms] eqn:E.
  - destruct hw; simpl in H; [tauto|]. destruct H as [<-|[]]. eauto.
  - assert (H' : In o (map (fun r => l ++ remove_nth j r) (m :: ms)))
      by (destruct hw; exact H).
    apply in_map_iff in H'. destruct H' as (r & <- & _). eauto.
Qed.

Lemma merge_row_matched hw i j w rr l o :
  In o (merge_row hw i j w rr l) -> matches i j rr l <> [] ->
  exists r, In r rr /\ nth i l NA = nth j r NA /\ o = l ++ remove_nth j r.
Proof.
  unfold merge_row. intros H Hne.
  destruct (matches i j rr l) as [|m ms] eqn:E; [congruence|].
  assert (H' : In o (map (fun r => l ++ remove_nth j r) (m :: ms)))
    by (destruct hw; exact H).
  apply in_map_iff in H'. destruct H' as (r & <- & Hr).
  rewrite <- E in Hr. unfold matches in Hr. apply filter_In in Hr.
  destruct Hr as [Hr Heq]. apply cell_eqb_eq in Heq. eauto.
Qed.

Lemma cell_at_prefix (L out : DataFrame) l rest c extra :
  columns out = columns L ++ extra ->
  length l = length (columns L) ->
  In c (columns L) ->
  cell_at out (l ++ rest) c = cell_at L l c.
Proof.
  intros Hc Hl Hin. unfold cell_at. rewrite Hc.
  destruct (In_index_of _ _ Hin) as [k Hk].
  rewrite (index_of_app _ _ _ _ Hk), Hk. apply app_nth1.
  rewrite Hl. eapply index_of_lt; eauto.
Qed.

Lemma remove_nth_length {A} j (l : list A) :
  j < length l -> length (remove_nth j l) = length l - 1.
Proof.
  intros H. unfold remove_nth. rewrite length_app, length_firstn, length_skipn. lia.
Qed.

Lemma merge_rect L R on hw rs out :
  merge L R on hw ("", rs) = Ok out -> rect L -> rect R -> rect out.
Proof.
  rewrite merge_left_eq.
  destruct (index_of on (columns L)) as [i|]; [|discriminate].
  destruct (index_of on (columns R)) as [j|] eqn:Ej; [|discriminate].
  destruct (suffix_clash _ _ _ _); [|discriminate].
  intros [= <-] HL HR. unfold rect in *. simpl. apply Forall_forall. intros o Ho.
  apply in_flat_map in Ho. destruct Ho as (l & Hl & Ho).
  rewrite Forall_forall in HL, HR. specialize (HL l Hl).
  unfold right_labels, remove_label. rewrite Ej, length_app, length_map.
  unfold merge_row in Ho.
  assert (Hm : forall r, In r (matches i j (rows R) l) ->
                 length (l ++ remove_nth j r) = length (columns L)
                                               + length (remove_nth j (columns R))).
  { intros r Hr. apply filter_In in Hr. destruct Hr as [Hr _].
    apply index_of_lt in Ej.
    rewrite length_app, !remove_nth_length, HL, (HR r Hr); auto.
    now rewrite (HR r Hr). }
  destruct (matches i j (rows R) l) as [|m ms] eqn:E.
  - destruct hw; simpl in Ho; [tauto|]. destruct Ho as [<-|[]].
    now rewrite length_app, repeat_length, HL.
  - assert (H' : In o (map (fun r => l ++ remove_nth j r) (m :: ms)))
      by (destruct hw; exact Ho).
    apply in_map_iff in H'. destruct H' as (r & <- & Hr). now apply Hm.
Qed.


Lemma Forall2_map_self {A B} (P : A -> B -> Prop) (g : A -> B) l :
  (forall x, In x l -> P x (g x)) -> Forall2 P l (map g l).
Proof.
  induction l as [|x l IH]; intros H; simpl; constructor.
  - apply H. now left.
  - apply IH. intros y Hy. apply H. now right.
Qed.

Lemma flat_map_map_concat {A B C} (f : B -> list C) (g : A -> B) l :
  flat_map f (map g l) = concat (map (fun x => f (g x)) l).
Proof. now rewrite flat_map_concat_map, map_map. Qed.




(** * The claims about the Cleanser *)

Lemma cleanse_series_returns h s x upper :
  series_has h s x ->
  returns_series (cleanse_series (Some s) upper) h (map (cleanse_cell upper) x).
Proof.
  intros H. exists (SOwn (length h)).
  exists (h ++ [OSeries (map (cleanse_cell upper) x)]). split.
  - exact (cleanse_series_eq _ _ _ _ H).
  - apply series_values_own, nth_error_app_new.
Qed.

(** C1.  For every column [x] and every case-fold flag, [cleanse_series]
    returns a column [y] of the same length in which, position by position,
    a cell is missing exactly when the input cell is, and a present cell is
    the text of the input cell ([str(x)]) in normal form: no white space at
    either end, the words separated by one space, upper-cased exactly when
    the flag is set. *)
Theorem cleanse_series_cells (h : heap) (s : series_ref) (x : list cell)
    (upper : bool) :
  series_has h s x ->
  exists y,
    returns_series (cleanse_series (Some s) upper) h y
    /\ length y = length x
    /\ Forall2 (fun a b =>
                  (b = NA <-> a = NA)
                  /\ (a <> NA -> b = Str (Text.normal_form upper (py_str a))))
         x y.
Proof.
  intros H. exists (map (cleanse_cell upper) x). split; [|split].
  - now apply cleanse_series_returns.
  - apply length_map.
  - apply Forall2_map_self. intros a _. split.
    + destruct a; simpl; split; congruence.
    + intros Ha. destruct a as [|t|z]; [congruence| |];
        simpl; now rewrite TextFacts.cleanse_text_normal_form.
Qed.

Lemma cleanse_series_cells_witness :
  exists y,
    returns_series (cleanse_series (Some (SOwn 0)) true) [OSeries example_column] y
    /\ length y = length example_column
    /\ Forall2 (fun a b =>
                  (b = NA <-> a = NA)
                  /\ (a <> NA -> b = Str (Text.normal_form true (py_str a))))
         example_column y.
Proof.
  apply (cleanse_series_cells [OSeries example_column] (SOwn 0) example_column true).
  reflexivity.
Defined.

(** C6.  Cleansing is idempotent: for every column and fixed flag, the
    column that [cleanse_series] returns for the column it returned is the
    column it returned. *)
Theorem cleanse_series_idempotent (h : heap) (s : series_ref) (x : list cell)
    (upper : bool) :
  series_has h s x ->
  exists y,
    returns_series (cleanse_series (Some s) upper) h y
    /\ returns_series (once <- cleanse_series (Some s) upper ;;
                       cleanse_series once upper) h y.
Proof.
  intros H. exists (map (cleanse_cell upper) x). split.
  - now apply cleanse_series_returns.
  - exists (SOwn (length (h ++ [OSeries (map (cleanse_cell upper) x)]))).
    eexists. split.
    + erewrite bind_ok by (apply cleanse_series_eq; exact H).
      apply cleanse_series_eq. apply series_values_own, nth_error_app_new.
    + rewrite map_map.
      rewrite (map_ext _ _ (fun c => cleanse_cell_idem upper c)).
      apply series_values_own, nth_error_app_new.
Qed.

Lemma cleanse_series_idempotent_witness :
  exists y,
    returns_series (cleanse_series (Some (SOwn 0)) true) [OSeries example_column] y
    /\ returns_series (once <- cleanse_series (Some (SOwn 0)) true ;;
                       cleanse_series once true) [OSeries example_column] y.
Proof.
  apply (cleanse_series_idempotent [OSeries example_column] (SOwn 0)
           example_column true).
  reflexivity.
Defined.

(** * The claim about the inputs *)

(** C9.  A call of [build_qc_output] leaves every object that existed before
    the call as it was, whatever the arguments and whether it returns or
    raises: the heap after the call is the heap before it, followed by the
    objects the call made.  In particular the three input tables are
    unchanged. *)
Theorem build_qc_output_inputs_unchanged (h : heap) (r1 r2 r3 : ref)
    (drop keys : option (list text)) (rse : bool) :
  let h' := snd (build_qc_output r1 r2 r3 drop keys rse h) in
  extends h h'
  /\ (forall r o, nth_error h r = Some o -> nth_error h' r = Some o)
  /\ (forall t1 t2 t3, holds h r1 t1 /\ holds h r2 t2 /\ holds h r3 t3 ->
                       holds h' r1 t1 /\ holds h' r2 t2 /\ holds h' r3 t3).
Proof.
  intros h'.
  destruct (preserves_build_qc_output (length h) r1 r2 r3 drop keys rse h (le_n _))
    as [F _]. fold h' in F.
  assert (G : forall r o, nth_error h r = Some o -> nth_error h' r = Some o).
  { intros r o Hr. rewrite (frame_lookup _ _ _ _ F); [exact Hr|].
    apply nth_error_Some. congruence. }
  split; [now apply frame_extends|]. split; [exact G|].
  unfold holds. intros t1 t2 t3 (H1 & H2 & H3). auto.
Qed.

(** * The claim about the Reshaper *)

(** C2, as the code has it.  For every response table with distinct labels,
    key-field list and drop list: the key set is the configured key fields
    that the pruned table has (an absent one is left out, no error) and the
    value columns are all the other columns of the pruned table.  When the
    pruned table has no column called [Value] and no key field is in the key
    set twice, the reshaper returns a long table whose number of rows is the
    number of cells that are not missing over all pairs of a row and a value
    column.  Otherwise it raises: [ValueError] for a column called [Value],
    [KeyError] for a key field that is listed twice. *)
Theorem reshape_row_count (h : heap) (r : ref) (t : DataFrame)
    (drop keys : option (list text)) :
  holds h r t ->
  wf_frame t ->
  let p := pruned t drop in
  let K := key_fields p keys in
  let V := data_cols p keys in
  (forall c, In c K <->
             In c (match keys with None => default_key_fields | Some ks => ks end)
             /\ In c (columns p))
  /\ (forall c, In c V <-> In c (columns p) /\ ~ In c K)
  /\ (~ In "Value" (columns p) -> NoDup K ->
      exists long,
        returns (reshape r drop keys) h long
        /\ columns long = K ++ ["Name"; "Value"]
        /\ length (rows long) = count_present p V)
  /\ (In "Value" (columns p) ->
      raises (reshape r drop keys) h (value_name_error "Value"))
  /\ (~ In "Value" (columns p) -> ~ NoDup K ->
      exists c, In c K /\ raises (reshape r drop keys) h (KeyError c)).
Proof.
  intros H _ p K V.
  pose proof (reshape_computes h r t drop keys H) as C.
  unfold reshape_value in C. fold p in C. rewrite long_value_eq in C.
  fold K in C. fold V in C.
  split; [|split; [|split; [|split]]].
  - intros c. unfold K, key_fields. rewrite filter_In, mem_In. tauto.
  - intros c. unfold V, K, data_cols. rewrite filter_In, negb_true_iff.
    rewrite <- (mem_In c (key_fields p keys)).
    destruct (mem c (key_fields p keys)); intuition congruence.
  - intros Hv Hn.
    destruct (mem "Value" (columns p)) eqn:E; [apply mem_In in E; tauto|].
    rewrite (proj2 (first_repeated_nodup K) Hn) in C.
    eexists. split; [apply computes_returns; exact C|]. split; [reflexivity|].
    apply long_rows_count.
  - intros Hv. rewrite (proj2 (mem_In _ _) Hv) in C.
    now apply computes_raises.
  - intros Hv Hn.
    destruct (mem "Value" (columns p)) eqn:E; [apply mem_In in E; tauto|].
    destruct (first_repeated [] K) as [c|] eqn:F.
    + exists c. split; [eapply first_repeated_In; eauto|].
      now apply computes_raises.
    + apply first_repeated_nodup in F. tauto.
Qed.

Lemma scenario_responses_wf : wf_frame scenario_responses.
Proof.
  split.
  - repeat constructor; simpl; intuition discriminate.
  - repeat constructor.
Qed.

Lemma reshape_row_count_witness :
  let p := pruned scenario_responses None in
  let K := key_fields p scenario_keys in
  let V := data_cols p scenario_keys in
  (forall c, In c K <-> In c ["Respondent"] /\ In c (columns p))
  /\ (forall c, In c V <-> In c (columns p) /\ ~ In c K)
  /\ (~ In "Value" (columns p) -> NoDup K ->
      exists long,
        returns (reshape 0 None scenario_keys) scenario_heap long
        /\ columns long = K ++ ["Name"; "Value"]
        /\ length (rows long) = count_present p V)
  /\ (In "Value" (columns p) ->
      raises (reshape 0 None scenario_keys) scenario_heap
        (value_name_error "Value"))
  /\ (~ In "Value" (columns p) -> ~ NoDup K ->
      exists c, In c K
                /\ raises (reshape 0 None scenario_keys) scenario_heap (KeyError c)).
Proof.
  apply (reshape_row_count scenario_heap 0 scenario_responses None scenario_keys).
  - reflexivity.
  - exact scenario_responses_wf.
Defined.

(** C2 as stated fails: a key field typed twice makes the reshaper raise
    [KeyError], and so does, with [ValueError], a question called [Value];
    no long table is returned. *)
Lemma repeated_key_field_is_refused :
  raises (reshape 0 None repeated_keys) scenario_heap (KeyError "Respondent")
  /\ raises (reshape 0 None scenario_keys) [ODataFrame value_responses]
       (value_name_error "Value")
  /\ ~ exists long, returns (reshape 0 None repeated_keys) scenario_heap long.
Proof.
  assert (R : raises (reshape 0 None repeated_keys) scenario_heap
                (KeyError "Respondent"))
    by (apply raises_by_evaluation; vm_compute; reflexivity).
  split; [exact R|]. split.
  - apply raises_by_evaluation. vm_compute. reflexivity.
  - intros (long & r & h' & E & _). destruct R as (h'' & E'). congruence.
Qed.

(** * A join of two cleansed frames *)


Section MergeCleansed.

Variables (L R : DataFrame) (colsL colsR : list text).
Variables (on rs : text) (hw : how).


Hypothesis on_left : mem on colsL = true.
Hypothesis on_right : mem on colsR = true.

(** The join, in closed form. *)
Lemma merge_cleansed_eq :
  merge (cleanse_frame L colsL true) (cleanse_frame R colsR true) on hw ("", rs)
  = match index_of on (columns L), index_of on (columns R) with
    | Some i, Some j =>
        match suffix_clash (columns L) (columns R) on rs with
        | [] => Ok (mkDF (columns L ++ right_labels (columns L) (columns R) on rs)
                      (concat (map (fun l => merge_row hw i j
                                     (length (remove_nth j (columns R)))
                                     (map (cleanse_row true (columns R) colsR) (rows R)) (cleanse_row true (columns L) colsL l)) (rows L))))
        | d :: ds => Err (MergeError (d :: ds))
        end
    | _, _ => Err (KeyError on)
    end.
Proof.
  rewrite merge_left_eq, !cleanse_frame_columns, !cleanse_frame_rows.
  destruct (index_of on (columns L)) as [i|]; [|reflexivity].
  destruct (index_of on (columns R)) as [j|]; [|reflexivity].
  now rewrite flat_map_map_concat.
Qed.

Variables (i j : nat).
Hypothesis index_left : index_of on (columns L) = Some i.
Hypothesis index_right : index_of on (columns R) = Some j.





Hypothesis rect_left : rect L.

(** A row of the join carries the cells of the left row it comes from. *)
Lemma merged_row_carries out w l o c :
  columns out = columns L ++ right_labels (columns L) (columns R) on rs ->
  In l (rows L) ->
  In o (merge_row hw i j w (map (cleanse_row true (columns R) colsR) (rows R)) (cleanse_row true (columns L) colsL l)) ->
  In c (columns L) ->
  cell_at out o c
  = if mem c colsL then cleanse_cell true (cell_at L l c) else cell_at L l c.
Proof.
  intros Hc Hl Ho Hin. destruct (merge_row_prefix _ _ _ _ _ _ _ Ho) as [rest ->].
  rewrite <- cell_at_cleanse_frame.
  apply cell_at_prefix with (extra := right_labels (columns L) (columns R) on rs).
  - now rewrite cleanse_frame_columns.
  - rewrite cleanse_row_length, cleanse_frame_columns.
    unfold rect in rect_left. rewrite Forall_forall in rect_left. auto.
  - now rewrite cleanse_frame_columns.
Qed.


End MergeCleansed.

(** * The claims about the two join stages *)


Ltac prove_wf :=
  split; [repeat constructor; simpl; intuition discriminate|repeat constructor].

Lemma example_long_wf : wf_frame example_long.
Proof. prove_wf. Qed.





Lemma scenario_numerical_wf : wf_frame scenario_numerical.
Proof. prove_wf. Qed.


(** * The rows of the output, traced back through the stages *)

Lemma stage_a_value_rows long recon joined :
  stage_a_value long recon = Ok joined -> rect long ->
  (exists extra, columns joined = columns long ++ extra)
  /\ forall o, In o (rows joined) ->
       exists l, In l (rows long)
         /\ forall c, In c (columns long) ->
              cell_at joined o c
              = if mem c ["Respondent"; "Panel"; "Name"]
                then cleanse_cell true (cell_at long l c)
                else cell_at long l c.
Proof.
  unfold stage_a_value.
  destruct (cleanse_value long _ true) as [l0|] eqn:El; [|discriminate].
  apply cleanse_value_ok in El. subst l0. cbn [rbind].
  destruct (cleanse_value recon _ true) as [r0|] eqn:Er; [|discriminate].
  apply cleanse_value_ok in Er. subst r0. cbn [rbind].
  rewrite merge_cleansed_eq.
  destruct (index_of "Name" (columns long)) as [i|] eqn:Hi; [|discriminate].
  destruct (index_of "Name" (columns recon)) as [j|] eqn:Hj; [|discriminate].
  destruct (suffix_clash _ _ _ _); [|discriminate].
  intros [= <-] RL. split; [simpl; eauto|].
  intros o Ho. simpl in Ho. apply in_concat in Ho. destruct Ho as (g & Hg & Ho).
  apply in_map_iff in Hg. destruct Hg as (l & <- & Hl).
  exists l. split; [exact Hl|]. intros c Hc.
  eapply (merged_row_carries long recon ["Respondent"; "Panel"; "Name"]
            recon_cols_to_clean "Name" "_recon" Inner i j RL); eauto.
Qed.

Lemma stage_a_value_rect long recon joined :
  stage_a_value long recon = Ok joined -> rect long -> rect recon -> rect joined.
Proof.
  unfold stage_a_value.
  destruct (cleanse_value long _ true) as [l0|] eqn:El; [|discriminate].
  apply cleanse_value_ok in El. subst l0. cbn [rbind].
  destruct (cleanse_value recon _ true) as [r0|] eqn:Er; [|discriminate].
  apply cleanse_value_ok in Er. subst r0. cbn [rbind].
  intros H RL RR.
  eapply merge_rect; [exact H| |]; now apply cleanse_frame_rect.
Qed.

Lemma stage_b_value_rows joined numerical out :
  stage_b_value joined numerical = Ok out -> rect joined ->
  forall o, In o (rows out) ->
    exists l, In l (rows joined)
      /\ forall c, In c (columns joined) ->
           cell_at out o c
           = if mem c ["Value"]
             then cleanse_cell true (cell_at joined l c)
             else cell_at joined l c.
Proof.
  unfold stage_b_value.
  destruct (if mem "Value" (columns numerical)
            then cleanse_column_value true numerical "Value"
            else Ok numerical) as [n|] eqn:En; [|discriminate].
  cbn [rbind].
  destruct (cleanse_column_value true joined "Value") as [j0|] eqn:Ej;
    [|discriminate].
  cbn [rbind]. apply cleanse_column_value_ok in Ej. destruct Ej as [-> _].
  assert (n = cleanse_column true numerical "Value") as ->.
  { destruct (mem "Value" (columns numerical)) eqn:Hm.
    - now apply cleanse_column_value_ok in En.
    - injection En as <-. symmetry. now apply cleanse_column_absent. }
  clear En.
  change (cleanse_column true joined "Value")
    with (cleanse_frame joined ["Value"] true).
  change (cleanse_column true numerical "Value")
    with (cleanse_frame numerical ["Value"] true).
  rewrite merge_cleansed_eq.
  destruct (index_of "Value" (columns joined)) as [i|] eqn:Hi; [|discriminate].
  destruct (index_of "Value" (columns numerical)) as [j|] eqn:Hj; [|discriminate].
  destruct (suffix_clash _ _ _ _); [|discriminate].
  intros [= <-] RJ o Ho. simpl in Ho. apply in_concat in Ho.
  destruct Ho as (g & Hg & Ho).
  apply in_map_iff in Hg. destruct Hg as (l & <- & Hl).
  exists l. split; [exact Hl|]. intros c Hc.
  eapply (merged_row_carries joined numerical ["Value"] ["Value"] "Value" "_num"
            Left i j RJ); eauto.
Qed.

Lemma long_value_cells p keys long :
  long_value p keys = Ok long ->
  columns long = key_fields p keys ++ ["Name"; "Value"]
  /\ forall l, In l (rows long) -> notna (cell_at long l "Value") = true.
Proof.
  rewrite long_value_eq. destruct (mem "Value" (columns p)) eqn:E; [discriminate|].
  destruct (first_repeated [] (key_fields p keys)); [discriminate|].
  intros [= <-]. split; [reflexivity|]. intros l Hl. simpl in Hl.
  apply filter_In in Hl. destruct Hl as [_ Hl].
  unfold cell_at. simpl columns. now rewrite (value_index _ _ E).
Qed.

(** Every row of the output comes from a row of the long table: the cells
    under [Respondent], [Panel] and [Name] cleansed by step 5, the cell
    under [Value] cleansed before the second join, the others as they
    were. *)
Lemma build_value_cells t1 t2 t3 drop keys out :
  build_value t1 t2 t3 drop keys = Ok out -> rect t2 ->
  exists long,
    reshape_value t1 drop keys = Ok long
    /\ cleanse_value long ["Respondent"; "Panel"; "Name"] true
       = Ok (cleanse_long_value long)
    /\ forall o, In o (rows out) ->
         exists l, In l (rows long)
           /\ notna (cell_at long l "Value") = true
           /\ cell_at out o "Value" = cleanse_cell true (cell_at long l "Value")
           /\ forall c, In c (columns long) -> c <> "Value" ->
                cell_at out o c
                = if mem c ["Respondent"; "Panel"; "Name"]
                  then cleanse_cell true (cell_at long l c)
                  else cell_at long l c.
Proof.
  unfold build_value. intros H R2.
  destruct (reshape_value t1 drop keys) as [long|] eqn:El; [|discriminate].
  simpl in H. destruct (stage_a_value long t2) as [joined|] eqn:Ea; [|discriminate].
  simpl in H. exists long. split; [reflexivity|].
  split.
  { unfold stage_a_value in Ea.
    destruct (cleanse_value long _ true) as [l0|] eqn:Ec; [|discriminate].
    now rewrite (cleanse_value_ok _ _ _ _ Ec). }
  pose proof (long_value_rect _ _ _ El) as RL.
  destruct (long_value_cells _ _ _ El) as [Hcols Hna].
  destruct (stage_a_value_rows _ _ _ Ea RL) as [[extra Hext] Ha].
  pose proof (stage_a_value_rect _ _ _ Ea RL R2) as RJ.
  intros o Ho.
  destruct (stage_b_value_rows _ _ _ H RJ o Ho) as (l2 & Hl2 & Hb).
  destruct (Ha l2 Hl2) as (l & Hl & Hc).
  assert (Hin : forall c, In c (columns long) -> In c (columns joined))
    by (intros c Hc'; rewrite Hext; apply in_or_app; now left).
  assert (Hv : In "Value" (columns long))
    by (rewrite Hcols; apply in_or_app; right; simpl; tauto).
  exists l. split; [exact Hl|]. split; [now apply Hna|]. split.
  - rewrite (Hb "Value" (Hin _ Hv)), (Hc "Value" Hv). reflexivity.
  - intros c Hcin Hne. rewrite (Hb c (Hin _ Hcin)), (Hc c Hcin).
    assert (mem c ["Value"] = false) as ->; [|reflexivity].
    simpl. rewrite orb_false_r. now apply TextFacts.eqb_neq.
Qed.

Lemma returns_build_value h r1 r2 r3 t1 t2 t3 drop keys rse out :
  holds h r1 t1 -> holds h r2 t2 -> holds h r3 t3 ->
  returns (build_qc_output r1 r2 r3 drop keys rse) h out ->
  build_value t1 t2 t3 drop keys = Ok out.
Proof.
  intros H1 H2 H3 R. eapply returns_computes; [|exact R].
  now apply build_qc_output_computes.
Qed.

Lemma cleansed_text_upper c s :
  cleanse_cell true c = Str s -> Text.upper s = s.
Proof.
  destruct c as [|t|z]; simpl; [discriminate| |]; intros [= <-];
    apply TextFacts.cleanse_text_upper.
Qed.

(** Whatever the options, the [Value] and [Name] cells of the output are
    upper-cased text. *)
Lemma build_value_upper t1 t2 t3 drop keys out :
  build_value t1 t2 t3 drop keys = Ok out -> rect t2 ->
  forall o, In o (rows out) ->
    (exists s, cell_at out o "Value" = Str s /\ Text.upper s = s)
    /\ (forall s, cell_at out o "Name" = Str s -> Text.upper s = s).
Proof.
  intros H R2 o Ho.
  destruct (build_value_cells _ _ _ _ _ _ H R2) as (long & El & _ & Hc).
  destruct (Hc o Ho) as (l & Hl & Hna & Hv & Hother).
  destruct (long_value_cells _ _ _ El) as [Hcols _].
  split.
  - rewrite Hv. destruct (cell_at long l "Value") as [|t|z] eqn:E; [discriminate| |];
      (eexists; split; [reflexivity|apply TextFacts.cleanse_text_upper]).
  - intros s Hs. rewrite Hother in Hs.
    + simpl in Hs. eapply cleansed_text_upper; eauto.
    + rewrite Hcols. apply in_or_app. right. simpl. tauto.
    + discriminate.
Qed.

(** * The claims about the whole pipeline *)

Lemma scenario_recon_wf : wf_frame scenario_recon.
Proof. prove_wf. Qed.

Lemma scenario_returns :
  returns (build_qc_output 0 1 2 None scenario_keys true) scenario_heap
    (mkDF ["Respondent"; "Name"; "Value"; "Section"; "Code"]
       [[Str "R1"; Str "Q1"; Str "YES"; Str "A"; Int 1]]).
Proof. apply returns_by_evaluation. vm_compute. reflexivity. Qed.



(** C7, as the code has it.  [build_qc_output] has no [case_fold] option:
    its options are the drop list, the key fields and
    [recon_sheet_expected], and every cleansing step that touches a column
    passes [upper=True].  For every input and every setting of these
    options, the [Value] cell of every output row is upper-cased text, and
    so is its [Name] cell. *)
Theorem pipeline_always_upper (h : heap) (r1 r2 r3 : ref)
    (t1 t2 t3 : DataFrame) (drop keys : option (list text)) (rse : bool)
    (out : DataFrame) :
  holds h r1 t1 -> holds h r2 t2 -> holds h r3 t3 ->
  wf_frame t1 -> wf_frame t2 -> wf_frame t3 ->
  returns (build_qc_output r1 r2 r3 drop keys rse) h out ->
  forall o, In o (rows out) ->
    (exists s, cell_at out o "Value" = Str s /\ Text.upper s = s)
    /\ (forall s, cell_at out o "Name" = Str s -> Text.upper s = s).
Proof.
  intros H1 H2 H3 _ [_ R2] _ R.
  pose proof (returns_build_value _ _ _ _ _ _ _ _ _ _ _ H1 H2 H3 R) as B.
  now apply (build_value_upper _ _ _ _ _ _ B R2).
Qed.

Lemma pipeline_always_upper_witness :
  (exists s,
      cell_at (mkDF ["Respondent"; "Name"; "Value"; "Section"; "Code"]
                 [[Str "R1"; Str "Q1"; Str "YES"; Str "A"; Int 1]])
        [Str "R1"; Str "Q1"; Str "YES"; Str "A"; Int 1] "Value"
      = Str s /\ Text.upper s = s)
  /\ (forall s,
        cell_at (mkDF ["Respondent"; "Name"; "Value"; "Section"; "Code"]
                   [[Str "R1"; Str "Q1"; Str "YES"; Str "A"; Int 1]])
          [Str "R1"; Str "Q1"; Str "YES"; Str "A"; Int 1] "Name"
        = Str s -> Text.upper s = s).
Proof.
  apply (pipeline_always_upper scenario_heap 0 1 2 scenario_responses
           scenario_recon scenario_numerical None scenario_keys true
           (mkDF ["Respondent"; "Name"; "Value"; "Section"; "Code"]
              [[Str "R1"; Str "Q1"; Str "YES"; Str "A"; Int 1]])).
  - reflexivity.
  - reflexivity.
  - reflexivity.
  - exact scenario_responses_wf.
  - exact scenario_recon_wf.
  - exact scenario_numerical_wf.
  - exact scenario_returns.
  - simpl. tauto.
Defined.

(** C7 as stated fails on the scenario of the specification: with the
    answer [" yes "] the pipeline returns [YES], and no setting of the
    options it takes makes it return the answer with its case unchanged. *)
Lemma no_case_fold_option :
  returns (build_qc_output 0 1 2 None scenario_keys true) scenario_heap
    (mkDF ["Respondent"; "Name"; "Value"; "Section"; "Code"]
       [[Str "R1"; Str "Q1"; Str "YES"; Str "A"; Int 1]])
  /\ ~ exists drop keys rse out o,
         returns (build_qc_output 0 1 2 drop keys rse) scenario_heap out
         /\ In o (rows out)
         /\ cell_at out o "Value" = Str "yes".
Proof.
  split; [exact scenario_returns|].
  intros (drop & keys & rse & out & o & R & Ho & Hv).
  assert (B : build_value scenario_responses scenario_recon scenario_numerical
                drop keys = Ok out)
    by (eapply returns_build_value; [| | |exact R]; reflexivity).
  destruct (build_value_upper _ _ _ _ _ _ B (proj2 scenario_recon_wf) o Ho)
    as [(s & Hs & Hu) _].
  rewrite Hv in Hs. injection Hs as <-. discriminate.
Qed.

(** * The errors of the pipeline *)















(** * The scenario of the specification *)

(** C8, as the code has it.  On the scenario: the reshaper returns the one
    row [r1 , Q1,  yes ]; after the cleansing of step 5 the row is
    [R1, Q1,  yes ], its [Value] as it was; the Stage-A output is that row
    with [Section] [A]; Stage B cleanses [Value] and returns
    [R1, Q1, YES, A, 1]. *)
Theorem scenario_run :
  returns (reshape 0 None scenario_keys) scenario_heap
    (mkDF ["Respondent"; "Name"; "Value"] [[Str "r1 "; Str "Q1"; Str " yes "]])
  /\ returns (l <- reshape 0 None scenario_keys ;; cleanse_long l) scenario_heap
       (mkDF ["Respondent"; "Name"; "Value"] [[Str "R1"; Str "Q1"; Str " yes "]])
  /\ returns (l <- reshape 0 None scenario_keys ;; stage_a l 1) scenario_heap
       (mkDF ["Respondent"; "Name"; "Value"; "Section"]
          [[Str "R1"; Str "Q1"; Str " yes "; Str "A"]])
  /\ returns (build_qc_output 0 1 2 None scenario_keys true) scenario_heap
       (mkDF ["Respondent"; "Name"; "Value"; "Section"; "Code"]
          [[Str "R1"; Str "Q1"; Str "YES"; Str "A"; Int 1]]).
Proof.
  repeat split; apply returns_by_evaluation; vm_compute; reflexivity.
Qed.

(** C8 as stated fails: after the cleansing of step 5 the row is not
    [R1, Q1, YES]. *)
Lemma scenario_value_raw_after_step_5 :
  ~ returns (l <- reshape 0 None scenario_keys ;; cleanse_long l) scenario_heap
      (mkDF ["Respondent"; "Name"; "Value"] [[Str "R1"; Str "Q1"; Str "YES"]]).
Proof.
  intros (r & h' & E & H). vm_compute in E. injection E as <- <-.
  vm_compute in H. discriminate.
Qed.

(** * More about the Cleanser: the shape of cleansed text *)

Module TidyFacts.
Import Text TextFacts.








(** Two texts cleanse to the same key exactly when they have the same
    words, case apart. *)
Lemma cleanse_text_same_key (s t : text) :
  cleanse_text true s = cleanse_text true t
  <-> map upper (words s) = map upper (words t).
Proof.
  rewrite !cleanse_text_normal_form. unfold normal_form. split; intros H.
  - apply (f_equal words) in H.
    now rewrite !words_upper, !words_join_words in H.
  - now rewrite !upper_join, H.
Qed.

(** A text that [strip] leaves as it is has no white space at either end,
    and conversely. *)
Lemma strip_trimmed (s : text) : s <> [] -> strip s = s -> trimmed_name s.
Proof.
  intros Hne Hs. split; [exact Hne|]. split.
  - intros c r ->. unfold strip in Hs.
    destruct (lstrip_head (rstrip (c :: r))) as [E|(c' & t & E & Ec)];
      rewrite E in Hs; [discriminate|]. now injection Hs as -> _.
  - intros r c ->. apply (notrail_last r c).
    rewrite <- Hs. apply strip_notrail.
Qed.

Lemma trimmed_strip (s : text) : trimmed_name s -> strip s = s.
Proof.
  intros (Hne & Hfirst & Hlast).
  destruct (exists_last Hne) as (r & c & ->).
  unfold strip. rewrite (rstrip_last r c (Hlast r c eq_refl)).
  destruct (r ++ [c]) as [|a t] eqn:E; [reflexivity|].
  rewrite lstrip_cons. now rewrite (Hfirst a t eq_refl).
Qed.

End TidyFacts.

(** * The option texts of the page *)

Module ParseFacts.
Import Text TextFacts TidyFacts.

Lemma stripped_nonempty_trimmed (parts : list text) :
  Forall trimmed_name (stripped_nonempty parts).
Proof.
  apply Forall_forall. intros x Hx. unfold stripped_nonempty in Hx.
  apply filter_In in Hx. destruct Hx as [Hx Hne].
  apply in_map_iff in Hx. destruct Hx as (p & <- & _).
  apply strip_trimmed; [|apply strip_idem].
  intros E. rewrite E in Hne. discriminate.
Qed.

Lemma stripped_nonempty_id (names : list text) :
  Forall trimmed_name names -> stripped_nonempty names = names.
Proof.
  intros H. unfold stripped_nonempty.
  induction H as [|n names Hn _ IH]; [reflexivity|].
  simpl. rewrite (trimmed_strip n Hn), IH.
  destruct Hn as [Hne _].
  destruct (eqb n "") eqn:E; [apply eqb_eq in E; congruence|reflexivity].
Qed.

Lemma free_of_cons (p : N -> bool) (c : N) (w : text) :
  free_of p (c :: w) = negb (p c) && free_of p w.
Proof. reflexivity. Qed.

Lemma split_on_cons (sep c : N) (r : text) :
  split_on sep (c :: r)
  = if N.eqb c sep then [] :: split_on sep r
    else match split_on sep r with
         | w :: ws => (c :: w) :: ws
         | [] => [[c]]
         end.
Proof. reflexivity. Qed.

Lemma split_on_free (sep : N) (w : text) :
  free_of (fun c => N.eqb c sep) w = true -> split_on sep w = [w].
Proof.
  induction w as [|c w IH]; [reflexivity|]. rewrite free_of_cons, split_on_cons.
  destruct (N.eqb c sep); [discriminate|]. simpl. intros H. now rewrite IH.
Qed.

Lemma split_on_app (sep : N) (w rest : text) :
  free_of (fun c => N.eqb c sep) w = true ->
  split_on sep (w ++ sep :: rest) = w :: split_on sep rest.
Proof.
  induction w as [|c w IH].
  - intros _. simpl app. rewrite split_on_cons. now rewrite N.eqb_refl.
  - rewrite free_of_cons. simpl app. rewrite split_on_cons.
    destruct (N.eqb c sep); [discriminate|]. simpl. intros H. now rewrite IH.
Qed.

Lemma split_on_join (sep : N) (names : list text) :
  names <> [] ->
  Forall (fun n => free_of (fun c => N.eqb c sep) n = true) names ->
  split_on sep (join [sep] names) = names.
Proof.
  intros Hne H. induction H as [|n names Hn H IH]; [congruence|].
  destruct names as [|n' names]; [now apply split_on_free|].
  change (join [sep] (n :: n' :: names))
    with (n ++ sep :: join [sep] (n' :: names)).
  rewrite split_on_app by exact Hn. f_equal. apply IH. discriminate.
Qed.

Lemma splitlines_cons (c : N) (r : text) :
  splitlines (c :: r)
  = if is_linebreak c
    then match r with
         | c' :: r' =>
             if N.eqb c 13 && N.eqb c' 10
             then [] :: splitlines r'
             else [] :: splitlines r
         | [] => [[]]
         end
    else match splitlines r with
         | w :: ws => (c :: w) :: ws
         | [] => [[c]]
         end.
Proof. reflexivity. Qed.

Lemma splitlines_app (w rest : text) :
  free_of is_linebreak w = true ->
  splitlines (w ++ 10%N :: rest) = w :: splitlines rest.
Proof.
  induction w as [|c w IH].
  - intros _. simpl app. rewrite splitlines_cons.
    change (is_linebreak 10) with true. now destruct rest.
  - rewrite free_of_cons. simpl app. rewrite splitlines_cons.
    destruct (is_linebreak c); [discriminate|]. simpl. intros H. now rewrite IH.
Qed.

Lemma splitlines_free (w : text) :
  w <> [] -> free_of is_linebreak w = true -> splitlines w = [w].
Proof.
  induction w as [|c w IH]; [congruence|]. intros _.
  rewrite free_of_cons, splitlines_cons.
  destruct (is_linebreak c); [discriminate|]. simpl. intros H.
  destruct w as [|c' w']; [reflexivity|]. now rewrite IH.
Qed.

Lemma splitlines_join (names : list text) :
  Forall (fun n => n <> [] /\ free_of is_linebreak n = true) names ->
  splitlines (join [10%N] names) = names.
Proof.
  intros H. induction H as [|n names [Hn Hf] H IH]; [reflexivity|].
  destruct names as [|n' names]; [now apply splitlines_free|].
  change (join [10%N] (n :: n' :: names))
    with (n ++ 10%N :: join [10%N] (n' :: names)).
  rewrite splitlines_app by exact Hf. now rewrite IH.
Qed.

End ParseFacts.

(** * Further properties of the Cleanser *)



(** X2.  Two texts are cleansed (with case folding) to the same cell
    exactly when they have the same words, case apart: white space and case
    never decide whether two join keys match. *)
Theorem cleansed_keys_agree (s t : text) :
  cleanse_cell true (Str s) = cleanse_cell true (Str t)
  <-> map Text.upper (Text.words s) = map Text.upper (Text.words t).
Proof.
  rewrite <- TidyFacts.cleanse_text_same_key. unfold cleanse_cell, py_str.
  split; [intros [= H]; exact H|intros H; now rewrite H].
Qed.

Lemma bind_inv {A B} (m : M A) (k : A -> M B) h b h' :
  bind m k h = (Ok b, h') -> exists a h1, m h = (Ok a, h1) /\ k a h1 = (Ok b, h').
Proof.
  unfold bind. destruct (m h) as [[a|e] h1]; [eauto|discriminate].
Qed.

Lemma cleanse_series_own s upper h out h' :
  cleanse_series (Some s) upper h = (Ok out, h') -> exists r, out = Some (SOwn r).
Proof.
  assert (G : forall s0,
    (o <- series_copy s0 ;;
     v <- series_values o ;;
     sel <- series_loc o (map notna v) ;;
     _ <- series_loc_assign o (map notna v) (map str_strip (map astype_str sel)) ;;
     sel0 <- series_loc o (map notna v) ;;
     sub <- lift (apply_cells re_sub_cell sel0) ;;
     _ <- series_loc_assign o (map notna v) sub ;;
     _ <- (if upper
           then sel1 <- series_loc o (map notna v) ;;
                series_loc_assign o (map notna v) (map str_upper sel1)
           else ret tt) ;;
     ret (Some o)) h = (Ok out, h') -> exists r, out = Some (SOwn r)).
  { intros s0 H.
    apply bind_inv in H. destruct H as (o & h1 & Hc & H).
    unfold series_copy in Hc.
    apply bind_inv in Hc. destruct Hc as (v & h2 & _ & Hc).
    apply bind_inv in Hc. destruct Hc as (r & h3 & _ & Hc).
    injection Hc as <- _.
    repeat (apply bind_inv in H; destruct H as (? & ? & _ & H)).
    injection H as <- _. eauto. }
  destruct s as [r|df c|df c]; try apply G.
  unfold cleanse_series. intros H.
  apply bind_inv in H. destruct H as (t & h1 & _ & H).
  apply bind_inv in H. destruct H as (r & h2 & _ & H). discriminate.
Qed.

(** X3.  [cleanse_series] never writes to the series it is given, nor to
    any other object: what was in the heap is still there, and the series it
    returns is a new object (for [None] it returns [None]). *)
Theorem cleanse_series_fresh_copy (h : heap) (s : option series_ref)
    (upper : bool) :
  extends h (snd (cleanse_series s upper h))
  /\ forall out, fst (cleanse_series s upper h) = Ok out ->
       match s with
       | None => out = None
       | Some _ => exists r, out = Some (SOwn r) /\ length h <= r
       end.
Proof.
  destruct (preserves_cleanse_series (length h) s upper h (le_n _)) as [F Q].
  split; [now apply frame_extends|]. intros out Ho.
  destruct s as [s|].
  - destruct (cleanse_series (Some s) upper h) as [res h'] eqn:E. simpl in Ho.
    subst res. destruct (cleanse_series_own _ _ _ _ _ E) as [r ->].
    exists r. split; [reflexivity|]. apply (Q _ eq_refl).
  - simpl in Ho. now injection Ho as <-.
Qed.

(** * Further properties of [cleanse_df] *)

(** X4.  For a frame with distinct labels, [cleanse_df] returns a frame
    with the labels and the number of rows of its argument; row by row, the
    cell under a label listed in [cols] is the cleansed cell and every other
    cell is as it was.  A listed label that the frame does not have is
    skipped: it is no error. *)
Theorem cleanse_df_cells (h : heap) (df : ref) (t : DataFrame)
    (cols : list text) (upper : bool) :
  holds h df t ->
  NoDup (columns t) ->
  exists t',
    returns (cleanse_df df cols upper) h t'
    /\ columns t' = columns t
    /\ Forall2 (fun r r' =>
                  length r' = length r
                  /\ forall c, cell_at t' r' c
                               = if mem c cols then cleanse_cell upper (cell_at t r c)
                                 else cell_at t r c)
         (rows t) (rows t').
Proof.
  intros H Hn. exists (cleanse_frame t cols upper).
  split; [apply computes_returns; rewrite <- (cleanse_value_nodup _ _ _ Hn);
          now apply cleanse_df_computes|].
  split; [apply cleanse_frame_columns|].
  rewrite cleanse_frame_rows. apply Forall2_map_self. intros r _. split.
  - apply cleanse_row_length.
  - intros c. apply cell_at_cleanse_frame.
Qed.

Lemma cleanse_df_cells_witness :
  exists t',
    returns (cleanse_df 0 ["Respondent"; "Panel"; "Name"] true)
      [ODataFrame example_long] t'
    /\ columns t' = columns example_long
    /\ Forall2 (fun r r' =>
                  length r' = length r
                  /\ forall c, cell_at t' r' c
                               = if mem c ["Respondent"; "Panel"; "Name"]
                                 then cleanse_cell true (cell_at example_long r c)
                                 else cell_at example_long r c)
         (rows example_long) (rows t').
Proof.
  apply (cleanse_df_cells [ODataFrame example_long] 0 example_long
           ["Respondent"; "Panel"; "Name"] true).
  - reflexivity.
  - exact (proj1 example_long_wf).
Defined.

(** X5.  [cleanse_df] works on a copy: whatever it is given and whether it
    returns or raises, every object that was in the heap is unchanged, and
    the frame it returns is a new object. *)
Theorem cleanse_df_fresh_copy (h : heap) (df : ref) (cols : list text)
    (upper : bool) :
  extends h (snd (cleanse_df df cols upper h))
  /\ forall r, fst (cleanse_df df cols upper h) = Ok r -> length h <= r.
Proof.
  destruct (preserves_cleanse_df (length h) df cols upper h (le_n _)) as [F Q].
  split; [now apply frame_extends|exact Q].
Qed.

Lemma df_eq (a b : DataFrame) : columns a = columns b -> rows a = rows b -> a = b.
Proof. destruct a, b. simpl. congruence. Qed.

Lemma cleanse_row_idem u labels cols r :
  cleanse_row u labels cols (cleanse_row u labels cols r)
  = cleanse_row u labels cols r.
Proof.
  apply (nth_ext _ _ NA NA); [now rewrite !cleanse_row_length|].
  intros j _. rewrite !nth_cleanse_row.
  destruct (existsb _ cols); [apply cleanse_cell_idem|reflexivity].
Qed.

Lemma cleanse_frame_idem t cols u :
  cleanse_frame (cleanse_frame t cols u) cols u = cleanse_frame t cols u.
Proof.
  apply df_eq.
  - now rewrite !cleanse_frame_columns.
  - rewrite !cleanse_frame_rows, cleanse_frame_columns, map_map.
    apply map_ext. intros r. apply cleanse_row_idem.
Qed.

(** X6.  For a frame with distinct labels, cleansing twice with the same
    columns and flag gives the frame that cleansing once gives. *)
Theorem cleanse_df_idempotent (h : heap) (df : ref) (t : DataFrame)
    (cols : list text) (upper : bool) :
  holds h df t ->
  NoDup (columns t) ->
  exists t',
    returns (cleanse_df df cols upper) h t'
    /\ returns (once <- cleanse_df df cols upper ;; cleanse_df once cols upper) h t'.
Proof.
  intros H Hn. exists (cleanse_frame t cols upper).
  pose proof (cleanse_df_computes h df t cols upper H) as C.
  rewrite (cleanse_value_nodup _ _ _ Hn) in C.
  split; [now apply computes_returns|]. apply computes_returns.
  rewrite <- (cleanse_frame_idem t cols upper) at 1.
  change (Ok (cleanse_frame (cleanse_frame t cols upper) cols upper))
    with (rbind (Ok (cleanse_frame t cols upper))
            (fun t1 => Ok (cleanse_frame t1 cols upper))).
  eapply computes_bind; [exact C|apply preserves_cleanse_df|].
  intros r h' t1 [= <-] Hr _.
  rewrite <- (cleanse_value_nodup upper cols (cleanse_frame t cols upper))
    by now rewrite cleanse_frame_columns.
  now apply cleanse_df_computes.
Qed.

Lemma cleanse_df_idempotent_witness :
  exists t',
    returns (cleanse_df 0 ["Respondent"; "Panel"; "Name"] true)
      [ODataFrame example_long] t'
    /\ returns (once <- cleanse_df 0 ["Respondent"; "Panel"; "Name"] true ;;
                cleanse_df once ["Respondent"; "Panel"; "Name"] true)
         [ODataFrame example_long] t'.
Proof.
  apply (cleanse_df_idempotent [ODataFrame example_long] 0 example_long
           ["Respondent"; "Panel"; "Name"] true).
  - reflexivity.
  - exact (proj1 example_long_wf).
Defined.

(** X13.  When several columns of the frame carry a label that is listed in
    [cols], [cleanse_df] raises [ValueError]: [df[c]] is then a frame, and
    line 21 indexes it with a mask that is a frame.  The frame it was given
    is unchanged. *)
Theorem cleanse_df_repeated_label (h : heap) (df : ref) (t : DataFrame)
    (cols : list text) (upper : bool) (c : text) :
  holds h df t ->
  In c cols ->
  2 <= count c (columns t) ->
  raises (cleanse_df df cols upper) h multidimensional_key
  /\ holds (snd (cleanse_df df cols upper h)) df t.
Proof.
  intros H Hc Hk. split.
  - apply computes_raises.
    pose proof (cleanse_df_computes h df t cols upper H) as C.
    rewrite cleanse_value_eq in C.
    assert (R : repeated_in t cols = true).
    { apply existsb_exists. exists c. split; [exact Hc|now apply Nat.leb_le]. }
    now rewrite R in C.
  - destruct (preserves_cleanse_df (length h) df cols upper h (le_n _)) as [F _].
    eapply holds_frame_len; eauto.
Qed.

Lemma cleanse_df_repeated_label_witness :
  raises (cleanse_df 0 ["Respondent"; "Panel"; "Name"] true)
    [ODataFrame example_repeated] multidimensional_key
  /\ holds (snd (cleanse_df 0 ["Respondent"; "Panel"; "Name"] true
                  [ODataFrame example_repeated])) 0 example_repeated.
Proof.
  apply (cleanse_df_repeated_label [ODataFrame example_repeated] 0 example_repeated
           ["Respondent"; "Panel"; "Name"] true "Name").
  - reflexivity.
  - simpl. tauto.
  - vm_compute. lia.
Defined.

(** * The column pruner *)

Lemma nth_nil_NA i : nth i (@nil cell) NA = NA.
Proof. now destruct i. Qed.

(** A cell under a label that is kept is found again after the drop. *)
Lemma drop_cell names c : mem c names = false -> forall cols r,
  match index_of c (select (map (fun x => negb (mem x names)) cols) cols) with
  | Some i => nth i (select (map (fun x => negb (mem x names)) cols) r) NA
  | None => NA
  end
  = match index_of c cols with Some i => nth i r NA | None => NA end.
Proof.
  intros Hc. induction cols as [|x cols IH]; intros r; [reflexivity|].
  simpl map. destruct r as [|y r].
  - destruct (negb (mem x names)); simpl;
      repeat match goal with
             | |- context [match ?e with Some _ => _ | None => _ end] => destruct e
             | |- context [if ?e then _ else _] => destruct e
             end; auto using nth_nil_NA.
  - specialize (IH r). destruct (mem x names) eqn:Ex; simpl.
    + assert (Text.eqb c x = false) as ->.
      { apply TextFacts.eqb_neq. intros ->. congruence. }
      rewrite IH. now destruct (index_of c cols).
    + destruct (Text.eqb c x); [reflexivity|].
      destruct (index_of c (select (map (fun x => negb (mem x names)) cols) cols));
        destruct (index_of c cols); simpl in *; exact IH.
Qed.

Lemma mem_filter_present c names cols :
  mem c (filter (fun x => mem x cols) names) = mem c names && mem c cols.
Proof.
  apply eq_true_iff_eq. rewrite andb_true_iff, !mem_In, filter_In, mem_In.
  reflexivity.
Qed.

Lemma Forall2_same {A} (P : A -> A -> Prop) l :
  (forall x, P x x) -> Forall2 P l l.
Proof. intros H. induction l; constructor; auto. Qed.

(** X7.  The pruner returns the table without the listed columns: the labels
    that are not listed, in their order, every row with its cells under these
    labels as they were.  A listed label that the table does not have is
    ignored, and with no list or an empty list the table comes back as it
    is. *)
Theorem select_responses_cells (h : heap) (df : ref) (t : DataFrame)
    (drop : option (list text)) :
  holds h df t ->
  let names := match drop with Some l => l | None => [] end in
  exists p,
    returns (select_responses df drop) h p
    /\ columns p = filter (fun c => negb (mem c names)) (columns t)
    /\ Forall2 (fun r r' => forall c, ~ In c names -> cell_at p r' c = cell_at t r c)
         (rows t) (rows p).
Proof.
  intros H names. exists (pruned t drop).
  split; [apply computes_returns; now apply select_responses_computes|].
  assert (Hnone : names = [] ->
            pruned t drop = t ->
            columns t = filter (fun c => negb (mem c names)) (columns t)
            /\ Forall2 (fun r r' => forall c, ~ In c names ->
                                     cell_at t r' c = cell_at t r c)
                 (rows t) (rows t)).
  { intros -> _. split; [|apply Forall2_same; intros; reflexivity].
    symmetry. apply filter_In_all. intros; reflexivity. }
  destruct drop as [[|x l]|]; try (apply Hnone; reflexivity).
  clear Hnone. unfold pruned. fold names.
  assert (Hm : forall c, mem c (filter (fun c0 => mem c0 (columns t)) names)
                         = mem c names && mem c (columns t))
    by (intros c; apply mem_filter_present).
  generalize dependent (filter (fun c0 => mem c0 (columns t)) names).
  intros present Hm. unfold drop_columns. simpl columns. simpl rows. split.
  - rewrite select_map_filter. apply filter_ext_in. intros c Hc.
    rewrite Hm, (proj2 (mem_In _ _) Hc). now rewrite andb_true_r.
  - apply Forall2_map_self. intros r _ c Hc. unfold cell_at. simpl columns.
    apply drop_cell. rewrite Hm.
    apply andb_false_intro1. apply not_true_is_false. now rewrite mem_In.
Qed.

Lemma select_responses_cells_witness :
  let names := ["Q2"; "Status"] in
  exists p,
    returns (select_responses 0 (Some ["Q2"; "Status"])) scenario_heap p
    /\ columns p = filter (fun c => negb (mem c names)) (columns scenario_responses)
    /\ Forall2 (fun r r' => forall c, ~ In c names ->
                             cell_at p r' c = cell_at scenario_responses r c)
         (rows scenario_responses) (rows p).
Proof.
  apply (select_responses_cells scenario_heap 0 scenario_responses
           (Some ["Q2"; "Status"])).
  reflexivity.
Defined.

(** * The rows of the reshaped table *)





(** * The names typed in the page *)

(** X9.  Whatever is typed, the key fields and the columns to drop that the
    page passes on are names that are not empty and have no white space at
    either end. *)
Theorem parsed_names_trimmed (typed : text) :
  Forall trimmed_name (parse_key_fields typed)
  /\ Forall trimmed_name (parse_drop_cols typed).
Proof. split; apply ParseFacts.stripped_nonempty_trimmed. Qed.

(** X10.  Key fields written one after the other with commas between them
    are read back as they are, when no name holds a comma, is empty or
    starts or ends with white space. *)
Theorem parse_key_fields_round_trip (names : list text) :
  Forall trimmed_name names ->
  Forall (fun n => free_of (fun c => N.eqb c 0x2C) n = true) names ->
  parse_key_fields (Text.join "," names) = names.
Proof.
  intros Ht Hf. unfold parse_key_fields. destruct names as [|n names].
  - reflexivity.
  - rewrite (ParseFacts.split_on_join 0x2C (n :: names)); [|discriminate|exact Hf].
    now apply ParseFacts.stripped_nonempty_id.
Qed.

Ltac prove_trimmed :=
  split; [discriminate|];
  split; [intros c r [= <- _]; reflexivity|];
  intros r c E; apply (f_equal (@rev N)) in E; rewrite rev_app_distr in E;
  simpl in E; injection E as <- _; reflexivity.

Ltac prove_all_trimmed :=
  repeat (apply Forall_cons; [prove_trimmed|]); apply Forall_nil.

Lemma default_key_fields_trimmed : Forall trimmed_name default_key_fields.
Proof. unfold default_key_fields. prove_all_trimmed. Qed.

Lemma parse_key_fields_round_trip_witness :
  parse_key_fields (Text.join "," default_key_fields) = default_key_fields.
Proof.
  apply (parse_key_fields_round_trip default_key_fields).
  - exact default_key_fields_trimmed.
  - repeat constructor.
Defined.

(** X11.  Columns to drop written one per line are read back as they are,
    when no name holds a line boundary, is empty or starts or ends with white
    space. *)
Theorem parse_drop_cols_round_trip (names : list text) :
  Forall trimmed_name names ->
  Forall (fun n => free_of Text.is_linebreak n = true) names ->
  parse_drop_cols (Text.join [0x0A%N] names) = names.
Proof.
  intros Ht Hf. unfold parse_drop_cols.
  rewrite ParseFacts.splitlines_join.
  - now apply ParseFacts.stripped_nonempty_id.
  - rewrite Forall_forall in *. intros n Hn. split; [apply (Ht n Hn)|now apply Hf].
Qed.

Lemma parse_drop_cols_round_trip_witness :
  parse_drop_cols
    (Text.join [0x0A%N] ["Status"; "Term reason"; "Start time (GMT)"])
  = ["Status"; "Term reason"; "Start time (GMT)"].
Proof.
  apply (parse_drop_cols_round_trip ["Status"; "Term reason"; "Start time (GMT)"]).
  - prove_all_trimmed.
  - repeat constructor.
Defined.

Lemma rstrip_blank (w : text) :
  all_chars Text.isspace w = true -> Text.rstrip w = [].
Proof.
  induction w as [|c w IH]; [reflexivity|]. unfold all_chars. simpl forallb.
  intros H. apply andb_true_iff in H. destruct H as [Hc H].
  rewrite TextFacts.rstrip_cons, (IH H). now rewrite Hc.
Qed.

Lemma split_on_blank (typed : text) :
  all_chars (fun c => Text.isspace c || N.eqb c 0x2C) typed = true ->
  Forall (fun w => all_chars Text.isspace w = true) (split_on 0x2C typed).
Proof.
  induction typed as [|c typed IH]; [repeat constructor|].
  unfold all_chars in *. simpl forallb.
  intros H. apply andb_true_iff in H. destruct H as [Hc H]. specialize (IH H).
  rewrite ParseFacts.split_on_cons.
  destruct (N.eqb c 0x2C); [now constructor|].
  rewrite orb_false_r in Hc.
  destruct (split_on 0x2C typed) as [|w ws].
  - repeat constructor. simpl. now rewrite Hc.
  - inversion IH; subst. constructor; [|assumption]. simpl. now rewrite Hc.
Qed.

Lemma parse_key_fields_blank (typed : text) :
  all_chars (fun c => Text.isspace c || N.eqb c 0x2C) typed = true ->
  parse_key_fields typed = [].
Proof.
  intros H. unfold parse_key_fields, stripped_nonempty.
  induction (split_on_blank typed H) as [|w ws Hw _ IH]; [reflexivity|].
  simpl. unfold Text.strip at 1. now rewrite (rstrip_blank w Hw).
Qed.

(** X12.  A key-field text with nothing but white space and commas gives
    the empty list of key fields, and the empty list is not replaced by the
    default key fields: for a response table with distinct labels whose
    pruned table has no column called [Value], every column of the pruned
    table is a value column, and the reshaped table has the two columns
    [Name] and [Value] only, with one row for each cell that is not
    missing.  With a column called [Value] the reshaper raises. *)
Theorem blank_key_text_melts_all (h : heap) (r : ref) (t : DataFrame)
    (drop : option (list text)) (typed : text) :
  holds h r t ->
  NoDup (columns t) ->
  all_chars (fun c => Text.isspace c || N.eqb c 0x2C) typed = true ->
  parse_key_fields typed = []
  /\ (~ In "Value" (columns (pruned t drop)) ->
      exists long,
        returns (reshape r drop (Some (parse_key_fields typed))) h long
        /\ columns long = ["Name"; "Value"]
        /\ length (rows long)
           = count_present (pruned t drop) (columns (pruned t drop)))
  /\ (In "Value" (columns (pruned t drop)) ->
      raises (reshape r drop (Some (parse_key_fields typed))) h
        (value_name_error "Value")).
Proof.
  intros H _ Hb. rewrite (parse_key_fields_blank typed Hb).
  pose proof (reshape_computes h r t drop (Some []) H) as C.
  unfold reshape_value in C. rewrite long_value_eq in C.
  split; [reflexivity|]. split.
  - intros Hv.
    destruct (mem "Value" (columns (pruned t drop))) eqn:E;
      [apply mem_In in E; tauto|].
    eexists. split; [apply computes_returns; exact C|]. split; [reflexivity|].
    transitivity (count_present (pruned t drop)
                    (data_cols (pruned t drop) (Some [])));
      [exact (long_rows_count _ _ _)|].
    f_equal. unfold data_cols. apply filter_In_all. intros; reflexivity.
  - intros Hv. rewrite (proj2 (mem_In _ _) Hv) in C. now apply computes_raises.
Qed.

Lemma blank_key_text_melts_all_witness :
  parse_key_fields " , " = []
  /\ (~ In "Value" (columns (pruned scenario_responses None)) ->
      exists long,
        returns (reshape 0 None (Some (parse_key_fields " , "))) scenario_heap long
        /\ columns long = ["Name"; "Value"]
        /\ length (rows long)
           = count_present (pruned scenario_responses None)
               (columns (pruned scenario_responses None)))
  /\ (In "Value" (columns (pruned scenario_responses None)) ->
      raises (reshape 0 None (Some (parse_key_fields " , "))) scenario_heap
        (value_name_error "Value")).
Proof.
  apply (blank_key_text_melts_all scenario_heap 0 scenario_responses None " , ").
  - reflexivity.
  - exact (proj1 scenario_responses_wf).
  - reflexivity.
Defined.
